(** * Fixture reconciliation and multi-stage validation (driver/fixtures)

    A shallow embedding of [driver/fixtures/fixtures.go]: the fixture store,
    the golden reconciler, the per-stage fixture loops with their error
    budget, and the forbidden-type scan of the semantic stage. *)

From Stdlib Require Import ZArith Ascii String List Permutation Lia.
From stdpp Require Import gmap strings list fin_maps sorting.

Local Open Scope Z_scope.

(** ** Go string helpers ([strings] package) *)

Module GoStrings.

(** [strings.HasPrefix(s, prefix)]. *)
Fixpoint HasPrefix (s prefix : string) : bool :=
  match prefix, s with
  | EmptyString, _ => true
  | String _ _, EmptyString => false
  | String p prefix', String c s' =>
      if Ascii.eqb c p then HasPrefix s' prefix' else false
  end.

(** [strings.TrimPrefix(s, prefix)]. *)
Fixpoint dropn (n : nat) (s : string) : string :=
  match n, s with
  | O, _ => s
  | S n', String _ s' => dropn n' s'
  | S _, EmptyString => EmptyString
  end.

Definition TrimPrefix (s prefix : string) : string :=
  if HasPrefix s prefix then dropn (String.length prefix) s else s.

(** [strings.Contains(s, substr)]. *)
Fixpoint Contains (s substr : string) : bool :=
  HasPrefix s substr ||
  match s with
  | EmptyString => false
  | String _ s' => Contains s' substr
  end.

(** [strings.HasSuffix(s, suffix)]. *)
Definition HasSuffix (s suffix : string) : bool :=
  HasPrefix (String.rev s) (String.rev suffix).

(** [strings.TrimSuffix(s, suffix)]. *)
Definition TrimSuffix (s suffix : string) : string :=
  if HasSuffix s suffix
  then String.rev (dropn (String.length suffix) (String.rev s))
  else s.

(** [strings.TrimLeft(s, cutset)]: drops every leading character that
    occurs in [cutset]. *)
Fixpoint inCutset (c : ascii) (cutset : string) : bool :=
  match cutset with
  | EmptyString => false
  | String d cutset' => Ascii.eqb c d || inCutset c cutset'
  end.

Fixpoint TrimLeft (s cutset : string) : string :=
  match s with
  | EmptyString => EmptyString
  | String c s' => if inCutset c cutset then TrimLeft s' cutset else s
  end.

(** Go's [==] on strings. *)
Definition eqb (a b : string) : bool := bool_decide (a = b).

End GoStrings.

Import GoStrings.

(** ** Collaborators outside this package *)

(** Modelled from the spec: the [uast/nodes] package is not part of the
    sources at hand.  A tree is an immutable value: objects map field names
    to children (kept in key order), arrays hold children in order, and the
    rest are scalar leaves. *)
#[warnings="-register-all"]
Inductive Node : Type :=
| NNil
| NString (s : string)
| NInt (z : Z)
| NUint (n : N)
| NFloat (bits : Z)
| NBool (b : bool)
| NArray (elems : list Node)
| NObject (fields : list (string * Node)).

(** Modelled from the spec: the reserved field that carries a node's type
    tag. *)
Definition KeyType : string := "@type".

Fixpoint lookupField (k : string) (fields : list (string * Node)) : option Node :=
  match fields with
  | [] => None
  | (k', v) :: rest => if eqb k' k then Some v else lookupField k rest
  end.

(** Modelled from the spec: [uast.TypeOf]; the type tag a node carries, empty
    when it carries none. *)
Definition TypeOf (n : Node) : string :=
  match n with
  | NObject fields =>
      match lookupField KeyType fields with
      | Some (NString tp) => tp
      | _ => ""
      end
  | _ => ""
  end.

(** Modelled from the spec: [nodes.WalkPreOrder]; visits the root, then, if
    the callback asks to continue, every child subtree in order. The callback
    threads the state it closes over. *)
Fixpoint WalkPreOrder {S : Type} (walk : Node → S → bool * S) (root : Node) (st : S) : S :=
  let '(cont, st1) := walk root st in
  if cont then
    match root with
    | NObject fields => fold_left (fun acc kv => WalkPreOrder walk (snd kv) acc) fields st1
    | NArray elems => fold_left (fun acc n => WalkPreOrder walk n acc) elems st1
    | _ => st1
    end
  else st1.

Section NodeInduction.

Variable P : Node → Prop.
Hypothesis Pnil : P NNil.
Hypothesis Pstring : ∀ str, P (NString str).
Hypothesis Pint : ∀ z, P (NInt z).
Hypothesis Puint : ∀ n, P (NUint n).
Hypothesis Pfloat : ∀ bits, P (NFloat bits).
Hypothesis Pbool : ∀ b, P (NBool b).
Hypothesis Parray : ∀ elems, Forall P elems → P (NArray elems).
Hypothesis Pobject : ∀ fields, Forall (λ kv, P kv.2) fields → P (NObject fields).

(** Induction over trees whose children sit in lists. *)
Fixpoint Node_nested_ind (n : Node) : P n :=
  match n with
  | NNil => Pnil
  | NString str => Pstring str
  | NInt z => Pint z
  | NUint u => Puint u
  | NFloat bits => Pfloat bits
  | NBool b => Pbool b
  | NArray elems =>
      Parray elems
        ((fix go (l : list Node) : Forall P l :=
            match l with
            | [] => @List.Forall_nil _ P
            | x :: l' => @List.Forall_cons _ P x l' (Node_nested_ind x) (go l')
            end) elems)
  | NObject fields =>
      Pobject fields
        ((fix go (l : list (string * Node)) : Forall (λ kv, P kv.2) l :=
            match l with
            | [] => @List.Forall_nil _ (λ kv, P kv.2)
            | kv :: l' =>
                @List.Forall_cons _ (λ kv, P kv.2) kv l' (Node_nested_ind kv.2) (go l')
            end) fields)
  end.

End NodeInduction.

(** Error kinds ([errors.Kind]) that the package tests for. *)
Inductive ErrorKind := ErrDriverFailure | ErrSyntax | ErrTypeNotRegistered | ErrOther.

#[global] Instance ErrorKind_eq_dec : EqDecision ErrorKind.
Proof. solve_decision. Defined.

Record Error := { kind : ErrorKind; text : string }.

#[global] Instance Error_eq_dec : EqDecision Error.
Proof. solve_decision. Defined.

(** [k.Is(err)]; false on a nil error. *)
Definition Is (k : ErrorKind) (err : option Error) : bool :=
  match err with
  | Some e => bool_decide (kind e = k)
  | None => false
  end.

(** [err != nil]. *)
Definition notNil {A} (err : option A) : bool :=
  match err with Some _ => true | None => false end.

(** Modelled from the spec: [driver.Mode], the ordered progression raw,
    preprocessed, annotated, semantic. *)
Inductive Mode := ModeNative | ModePreprocessed | ModeAnnotated | ModeSemantic.

Definition Mode_val (m : Mode) : Z :=
  match m with
  | ModeNative => 1
  | ModePreprocessed => 2
  | ModeAnnotated => 4
  | ModeSemantic => 8
  end.

#[global] Instance Mode_eq_dec : EqDecision Mode.
Proof. solve_decision. Defined.

(** [driver.Native]: the driver under test. [Parse] is bounded by the parse
    timeout; a timeout comes back as an error. *)
Record Native := {
  Start : option Error;
  Parse : string → Node * option Error;
}.

(** [driver.Transforms]. *)
Record Transforms := {
  Namespace : string;
  Do : Mode → string → Node → Node * option Error;
}.

(** [positioner.VerifyToken]. *)
Record VerifyToken := { Verify : string → Node → option Error }.

(** Library functions of other packages, and the choices the Go runtime
    makes. *)
Record Env := {
  (** [filepath.Join] *)
  filepath_Join : string → string → string;
  (** [uastyml.Marshal] *)
  uastyml_Marshal : Node → string * option Error;
  (** [viewer.MarshalUAST] *)
  viewer_MarshalUAST : string → string → Node → string * option Error;
  (** [uast.NewValue] followed by [uast.NodeAs] on the value it returns *)
  uast_NewValue : string → option Error;
  uast_NodeAs : Node → string → option Error;
  (** the order in which a [range] over a map yields its entries: Go leaves
      it unspecified *)
  rangeOrder : list (string * Z) → list (string * Z);
  (** package-level switch of the deprecated Docker path *)
  runInDocker : bool;
}.

(** A [range] over a map yields every entry exactly once. *)
Definition rangeOrder_ok (E : Env) : Prop :=
  ∀ l, rangeOrder E l ≡ₚ l.

(** ** The suite *)

Definition Dir : string := "fixtures".

Definition syntaxErrTestName : string := "_syntax_error".
Definition maxParseErrors : Z := 3.

Record SemanticConfig := { BlacklistTypes : list string }.

Record DockerConfig := { Debug : bool; Image : string }.

Record Suite := {
  Lang : string;
  Ext : string;
  Path : string;
  UpdateNative : bool;
  UpdateUAST : bool;
  WriteViewerJSON : bool;
  WritePreprocessed : bool;
  NewDriver : unit → Native;
  Transforms_ : Transforms;
  BenchName : string;
  Semantic : SemanticConfig;
  Docker : DockerConfig;
  VerifyTokens : list VerifyToken;
}.

Definition gotSuffix : string := "_got".
Definition nativeExt : string := ".native".
Definition preExt : string := ".pre.uast".
Definition uastExt : string := ".uast".
Definition highExt : string := ".sem.uast".

(** ** Test state and the subtest monad *)

(** Arguments of a formatted message. *)
Inductive Arg := AStr (s : string) | AInt (n : Z) | AErr (e : option Error).

#[global] Instance Arg_eq_dec : EqDecision Arg.
Proof. solve_decision. Defined.

(** What [t.Error]/[t.Errorf] record: the test is marked failed and goes on. *)
Inductive Logged :=
| Errorf (format : string) (args : list Arg)
| ErrorE (e : Error).

#[global] Instance Logged_eq_dec : EqDecision Logged.
Proof. solve_decision. Defined.

(** How a test function stops. *)
Inductive Finish :=
| Returned
| SkipNow
| Skip (msg : string)
| RequireTrue (format : string) (args : list Arg)
| RequireNoError (e : Error)
| RequireFail (failureMessage format : string) (args : list Arg).

#[global] Instance Finish_eq_dec : EqDecision Finish.
Proof. solve_decision. Defined.

Definition isFailNow (f : Finish) : bool :=
  match f with
  | RequireTrue _ _ | RequireNoError _ | RequireFail _ _ _ => true
  | _ => false
  end.

Definition isSkip (f : Finish) : bool :=
  match f with
  | SkipNow | Skip _ => true
  | _ => false
  end.

(** The fixture directory, keyed by file name relative to [Suite.Path] (every
    access goes through [fixturesPath]), and the stage's failure counter
    (a [uint32]). Reads and writes of the directory succeed. *)
Record World := {
  files : gmap string string;
  parseErrors : Z;
}.

(** The state of a running (sub)test: the world and what it logged so far. *)
Record T := {
  world : World;
  logged : list Logged;
}.

(** The report of a finished (sub)test. *)
Record Report := {
  errors : list Logged;
  finish : Finish;
}.

(** The test passed: nothing logged, ran to its end. *)
Definition passed (r : Report) : bool :=
  bool_decide (errors r = []) && bool_decide (finish r = Returned).

(** The test failed. *)
Definition failed (r : Report) : bool :=
  negb (bool_decide (errors r = [])) || isFailNow (finish r).

(** The test is reported as skipped. *)
Definition skipped (r : Report) : bool :=
  bool_decide (errors r = []) && isSkip (finish r).

(** The report of a stage: how the stage function itself stopped, and one
    report per subtest it started, in order. *)
Record StageReport := {
  stageFinish : Finish;
  subtests : list (string * Report);
}.

(** A test body: runs on the state and either goes on with a value or stops
    the test function. *)
Definition M (A : Type) : Type := T → T * (A + Finish).

#[global] Instance M_ret : MRet M := λ A a t, (t, inl a).
#[global] Instance M_bind : MBind M := λ A B f m t,
  match m t with
  | (t', inl a) => f a t'
  | (t', inr fin) => (t', inr fin)
  end.

Definition stop {A} (fin : Finish) : M A := λ t, (t, inr fin).

Definition when (b : bool) (m : M unit) : M unit :=
  if b then m else mret tt.

(** *** The [testing.T] and [require] calls the package makes *)

Definition t_Errorf (format : string) (args : list Arg) : M unit :=
  λ t, ({| world := world t; logged := logged t ++ [Errorf format args] |}, inl tt).

Definition t_Error (e : Error) : M unit :=
  λ t, ({| world := world t; logged := logged t ++ [ErrorE e] |}, inl tt).

Definition t_SkipNow {A} : M A := stop SkipNow.
Definition t_Skip {A} (msg : string) : M A := stop (Skip msg).
Definition Return {A} : M A := stop Returned.

Definition require_NoError (err : option Error) : M unit :=
  match err with
  | Some e => stop (RequireNoError e)
  | None => mret tt
  end.

Definition require_True (cond : bool) (format : string) (args : list Arg) : M unit :=
  if cond then mret tt else stop (RequireTrue format args).

Definition require_Fail {A} (failureMessage format : string) (args : list Arg) : M A :=
  stop (RequireFail failureMessage format args).

(** *** The failure counter: [sync/atomic] on a [uint32] *)

Definition uint32_wrap (z : Z) : Z := z mod 2 ^ 32.

Definition atomic_LoadUint32 : M Z :=
  λ t, (t, inl (parseErrors (world t))).

Definition atomic_AddUint32 (delta : Z) : M unit :=
  λ t, ({| world := {| files := files (world t);
                       parseErrors := uint32_wrap (parseErrors (world t) + delta) |};
           logged := logged t |}, inl tt).

(** The test state with the directory replaced. *)
Definition withFiles (fs : gmap string string) (t : T) : T :=
  {| world := {| files := fs; parseErrors := parseErrors (world t) |};
     logged := logged t |}.

(** Go's [int], taken as 64 bits wide. *)
Definition int_wrap (z : Z) : Z := (z + 2 ^ 63) mod 2 ^ 64 - 2 ^ 63.

(** *** The fixture directory *)

Section Package.

Variable E : Env.

(** [runTestsDocker], the deprecated Docker runner, is not part of the
    sources at hand. *)
Variable runTestsDocker :
  Suite → gmap string string → gmap string string * list (string * StageReport).

Definition fixturesPath (s : Suite) (name : string) : string :=
  filepath_Join E (Path s) name.

(** A file that does not exist reads as the empty string. *)
Definition readFixturesFile (s : Suite) (name : string) : M string :=
  λ t, (t, inl (default "" (files (world t) !! name))).

Definition setFiles (f : gmap string string → gmap string string) : M unit :=
  λ t, (withFiles (f (files (world t))) t, inl tt).

Definition writeFixturesFile (s : Suite) (name data : string) : M unit :=
  setFiles (insert name data).

Definition deleteFixturesFile (s : Suite) (name : string) : M unit :=
  setFiles (delete name).

Definition writeViewerJSON (s : Suite) (name code : string) (ast : Node) : M unit :=
  let '(data, err) := viewer_MarshalUAST E (Lang s) code ast in
  require_NoError err;;
  writeFixturesFile s (name +:+ ".json") data.

Definition marshalNative (o : Node) : string * option Error := uastyml_Marshal E o.
Definition marshalUAST (o : Node) : string * option Error := uastyml_Marshal E o.

Definition isTest (name ext : string) : string * bool :=
  if negb (HasSuffix name ext) then ("", false)
  else (TrimSuffix name ext, true).

(** [ioutil.ReadDir]: the names in the directory, sorted. *)
Definition ReadDir (fs : gmap string string) : list string :=
  merge_sort String.le (map fst (map_to_list fs)).

(** [assert.ObjectsAreEqual] on two strings. *)
Definition ObjectsAreEqual (exp got : string) : bool := eqb exp got.

(** *** Golden reconciliation

    The tail of both subtest bodies (lines 190-213 and 330-353) is the
    same code up to the update flag, the golden suffix and two message
    texts; it is embedded once. *)
Definition reconcile (s : Suite) (update : bool) (suf : string)
    (failureMessage skipMessage : string) (fname got : string) : M unit :=
  exp ← readFixturesFile s (fname +:+ suf);
  when (eqb exp "")
    (writeFixturesFile s (fname +:+ suf) got;;
     t_Skip "no test file found - generating");;
  if negb (ObjectsAreEqual exp got) then
    let ext := if update then suf else suf +:+ gotSuffix in
    writeFixturesFile s (fname +:+ ext) got;;
    if negb update then
      require_Fail failureMessage "run diff command to debug:\ndiff -d ./%s ./%s"
        [AStr (TrimLeft (fixturesPath s (fname +:+ ext)) "./");
         AStr (TrimLeft (fixturesPath s (fname +:+ suf)) "./")]
    else
      t_Skip skipMessage
  else
    deleteFixturesFile s ((fname +:+ suf) +:+ gotSuffix).

(** *** Native stage *)

Definition testNativeBody (s : Suite) (dr : Native) (fname : string) : M unit :=
  n ← atomic_LoadUint32;
  when (maxParseErrors <=? n) t_SkipNow;;
  code ← readFixturesFile s fname;
  let '(resp, err) := Parse dr code in
  if Contains fname syntaxErrTestName then
    require_True (notNil err && negb (Is ErrDriverFailure err))
      "unexpected error: %v" [AErr err];;
    Return
  else
    when (notNil err) (atomic_AddUint32 1);;
    require_NoError err;;
    let '(js, err) := marshalNative resp in
    require_NoError err;;
    reconcile s (UpdateNative s) nativeExt
      "unexpected AST returned by the driver"
      "force update of native fixtures" fname js.

(** *** Annotated and semantic stages *)

(** The callback of the forbidden-type walk (lines 279-291), closing over
    [foundBlack]. The counts are Go [int]s. *)
Definition countBlack (tr : Transforms) (n : Node) (foundBlack : gmap string Z)
    : bool * gmap string Z :=
  let typ := TypeOf n in
  if eqb typ "" then (true, foundBlack)
  else
    let typ :=
      if negb (eqb (Namespace tr) "") && HasPrefix typ (Namespace tr +:+ ":")
      then TrimPrefix typ (Namespace tr +:+ ":")
      else typ in
    match foundBlack !! typ with
    | Some cnt => (true, <[typ := int_wrap (cnt + 1)]> foundBlack)
    | None => (true, foundBlack)
    end.

(** The reporting loop (lines 292-298) over the entries in the order the
    [range] yields them. *)
Fixpoint reportBlack (entries : list (string * Z)) (foundBlack : gmap string Z)
    : M (gmap string Z) :=
  match entries with
  | [] => mret foundBlack
  | (typ, cnt) :: rest =>
      if cnt =? 0 then reportBlack rest (delete typ foundBlack)
      else
        t_Errorf "blacklisted nodes of type %q (%d) found in the tree"
          [AStr typ; AInt cnt];;
        reportBlack rest foundBlack
  end.

(** The forbidden-type scan (lines 274-299). *)
Definition blacklistScan (tr : Transforms) (blacklist : list string) (ua : Node)
    : M unit :=
  when (negb (length blacklist =? 0)%nat)
    (let foundBlack := fold_left (fun m typ => <[typ := 0]> m) blacklist ∅ in
     let foundBlack := WalkPreOrder (countBlack tr) ua foundBlack in
     reportBlack (rangeOrder E (map_to_list foundBlack)) foundBlack;;
     mret tt).

(** The callback of the conformance walk (lines 301-317), closing over [t]. *)
Definition checkType (n : Node) (t : T) : bool * T :=
  let typ := TypeOf n in
  if eqb typ "" then (true, t)
  else
    let err := uast_NewValue E typ in
    if Is ErrTypeNotRegistered err then (true, t)
    else
      match err with
      | Some e => (true, fst (t_Error e t))
      | None =>
          match uast_NodeAs E n typ with
          | Some e =>
              (true, fst (t_Errorf "type check failed for %q: %v"
                                 [AStr typ; AErr (Some e)] t))
          | None => (true, t)
          end
      end.

Definition conformanceScan (ua : Node) : M unit :=
  λ t, (WalkPreOrder checkType ua t, inl tt).

Fixpoint verifyTokens (vs : list VerifyToken) (code : string) (ua : Node) : M unit :=
  match vs with
  | [] => mret tt
  | v :: rest =>
      match Verify v code ua with
      | Some e => t_Error e
      | None => mret tt
      end;;
      verifyTokens rest code ua
  end.

(** The subtest body of [testFixturesUAST]. Its [name += suffix] changes a
    variable that is not read again and is left out. *)
Definition testUASTBody (s : Suite) (dr : Native) (mode : Mode) (suf : string)
    (blacklist : list string) (fname : string) : M unit :=
  n ← atomic_LoadUint32;
  when (maxParseErrors <=? n) t_SkipNow;;
  code ← readFixturesFile s fname;
  let '(ast, err) := Parse dr code in
  when (notNil err) (atomic_AddUint32 1);;
  when (Contains fname syntaxErrTestName)
    (require_True (notNil err && negb (Is ErrDriverFailure err))
       "unexpected error: %v" [AErr err];;
     Return);;
  require_NoError err;;
  let tr := Transforms_ s in
  when (WritePreprocessed s)
    (let '(ua, err) := Do tr ModePreprocessed code ast in
     require_NoError err;;
     let '(un, err) := marshalUAST ua in
     require_NoError err;;
     writeFixturesFile s (fname +:+ preExt) un);;
  let '(ua, err) := Do tr mode code ast in
  require_NoError err;;
  blacklistScan tr blacklist ua;;
  when (Mode_val ModeSemantic <=? Mode_val mode) (conformanceScan ua);;
  when (negb (length (VerifyTokens s) =? 0)%nat && bool_decide (mode = ModeAnnotated))
    (verifyTokens (VerifyTokens s) code ua);;
  let '(un, err) := marshalUAST ua in
  require_NoError err;;
  reconcile s (UpdateUAST s) suf
    "unexpected UAST returned by the driver"
    "force update of fixtures" fname un;;
  when (WriteViewerJSON s) (writeViewerJSON s (fname +:+ suf) code ua).

(** *** Subtests and the fixture loop *)

(** [t.Run(name, body)]: the subtest runs to its end on the shared world
    before the parent goes on. *)
Definition t_Run (body : M unit) (w : World) : World * Report :=
  let '(t, r) := body {| world := w; logged := [] |} in
  (world t,
   {| errors := logged t;
      finish := match r with inl _ => Returned | inr fin => fin end |}).

(** The loop over the directory listing (lines 160-215 and 233-358): the two
    stage functions differ in the subtest body only. Leaving the loop by
    [return] ends the stage function. *)
Fixpoint fixturesLoop (body : string → M unit) (suffix : string)
    (ents : list string) (w : World) : World * list (string * Report) :=
  match ents with
  | [] => (w, [])
  | fname :: rest =>
      let '(name, ok) := isTest fname suffix in
      if negb ok then fixturesLoop body suffix rest w
      else if maxParseErrors <=? parseErrors w then (w, [])
      else
        let '(w1, r) := t_Run (body fname) w in
        let '(w2, rs) := fixturesLoop body suffix rest w1 in
        (w2, (name, r) :: rs)
  end.

(** A stage function up to its loop: list the directory, start the driver,
    declare the counter. *)
Definition runStage (s : Suite) (body : Native → string → M unit)
    (fs : gmap string string) : gmap string string * StageReport :=
  let ents := ReadDir fs in
  let dr := NewDriver s tt in
  match Start dr with
  | Some e => (fs, {| stageFinish := RequireNoError e; subtests := [] |})
  | None =>
      let parseErrors0 := 0 in
      let '(w, rs) :=
        fixturesLoop (body dr) (Ext s) ents
          {| files := fs; parseErrors := parseErrors0 |} in
      (files w, {| stageFinish := Returned; subtests := rs |})
  end.

Definition testFixturesNative (s : Suite) (fs : gmap string string)
    : gmap string string * StageReport :=
  runStage s (testNativeBody s) fs.

Definition testFixturesUAST (s : Suite) (mode : Mode) (suf : string)
    (blacklist : list string) (fs : gmap string string)
    : gmap string string * StageReport :=
  runStage s (fun dr => testUASTBody s dr mode suf blacklist) fs.

Definition RunTests (s : Suite) (fs : gmap string string)
    : gmap string string * list (string * StageReport) :=
  if negb (eqb (Image (Docker s)) "") && runInDocker E then runTestsDocker s fs
  else
    let '(fs1, native) := testFixturesNative s fs in
    let '(fs2, annotated) := testFixturesUAST s ModeAnnotated uastExt [] fs1 in
    let '(fs3, semantic) :=
      testFixturesUAST s ModeSemantic highExt (BlacklistTypes (Semantic s)) fs2 in
    (fs3, [("native", native); ("uast", annotated); ("semantic", semantic)]).

End Package.

(** ** Benchmark fixtures *)

(** [isBench] (lines 403-409): a benchmark fixture carries the prefix
    [bench_] and the suite's extension; its benchmark name drops both. *)
Definition isBench (name ext : string) : string * bool :=
  let prefix := "bench_" in
  if negb (HasPrefix name prefix) || negb (HasSuffix name ext) then ("", false)
  else (TrimSuffix (TrimPrefix name prefix) ext, true).

(** ** The development server ([build/dev.go]) *)

Module Build.

Definition cliPort : string := "9432".
Definition dockerSchema : string := "docker-daemon:".

Section ServerInstance.

(** [*grpc.ClientConn] and [protocol.ProtocolServiceClient]. *)
Variables ClientConn Client : Type.

(** [protocol.NewProtocolServiceClient]. *)
Variable NewProtocolServiceClient : ClientConn → Client.

(** The container of the instance, as far as the code reads it. *)
Record Container := {
  ID : string;
  IPAddress : string;
}.

(** [ServerInstance]; the Docker client it holds plays no part in what is
    embedded here. A [nil] connection is [None]. *)
Record ServerInstance := {
  user : option ClientConn;
  bblfshd : Container;
}.

(** [ClientV1] (lines 51-61). [dial] is what [grpc.DialContext] answers for
    an address at the time of the call. *)
Definition ClientV1 (dial : string → ClientConn + Error) (d : ServerInstance)
    : ServerInstance * (Client + Error) :=
  match user d with
  | None =>
      let addr := IPAddress (bblfshd d) in
      match dial (addr +:+ ":" +:+ cliPort) with
      | inr err => (d, inr err)
      | inl conn =>
          let d' := {| user := Some conn; bblfshd := bblfshd d |} in
          (d', inl (NewProtocolServiceClient conn))
      end
  | Some conn => (d, inl (NewProtocolServiceClient conn))
  end.

End ServerInstance.

End Build.

(** ** Specification-side notions *)

(** A test body keeps file [k] at content [v]. *)
Definition keeps {A} (k v : string) (m : M A) : Prop :=
  ∀ t, files (world t) !! k = Some v → files (world (m t).1) !! k = Some v.

(** A test body leaves the failure counter and the directory alone. *)
Definition keepsWorld {A} (m : M A) : Prop :=
  ∀ t, world (m t).1 = world t.

(** A test body leaves the failure counter alone. *)
Definition keepsCounter {A} (m : M A) : Prop :=
  ∀ t, parseErrors (world (m t).1) = parseErrors (world t).

(** A test body, when it stops the test function, stops it in a way that
    satisfies [R]. *)
Definition finishes {A} (R : Finish → Prop) (m : M A) : Prop :=
  ∀ t fin, (m t).2 = inr fin → R fin.

(** A test body never stops the test function. *)
Definition goesOn {A} (m : M A) : Prop := ∀ t, ∃ a, (m t).2 = inl a.

(** The number of fixtures a directory listing holds. *)
Definition discovered (suffix : string) (ents : list string) : nat :=
  length (filter (λ fname, (isTest fname suffix).2 = true) ents).

(** A stage that ran its loop on the directory [fs] left a fixture out only
    after it had run three subtests of its own. *)
Definition ownBudget (s : Suite) (fs : gmap string string) (stage : StageReport) : Prop :=
  stageFinish stage = Returned →
  (length (subtests stage) < discovered (Ext s) (ReadDir fs))%nat →
  (3 ≤ length (subtests stage))%nat.

(** A test body changes no file outside [K]. *)
Definition touches {A} (K : string → Prop) (m : M A) : Prop :=
  ∀ t k, ¬ K k → files (world (m t).1) !! k = files (world t) !! k.

(** The files a native subtest may write or delete: the golden and the
    pending-diff file of its fixture. *)
Definition nativeFootprint (fname : string) (k : string) : Prop :=
  k = fname +:+ nativeExt ∨ k = fname +:+ nativeExt +:+ gotSuffix.

(** The files an annotated or semantic subtest may write or delete: the
    preprocessed dump, the golden, the pending-diff file and the viewer dump
    of its fixture. *)
Definition uastFootprint (suf fname : string) (k : string) : Prop :=
  k = fname +:+ preExt ∨ k = fname +:+ suf ∨ k = fname +:+ suf +:+ gotSuffix
  ∨ k = (fname +:+ suf) +:+ ".json".

(** What the conformance scan has to say about one node: nothing for a node
    without a type tag or with a tag that is not registered, the error of the
    registry otherwise, or the failed conversion. *)
Definition typeErrors (E : Env) (n : Node) : list Logged :=
  let typ := TypeOf n in
  if eqb typ "" then []
  else
    match uast_NewValue E typ with
    | Some e => if bool_decide (kind e = ErrTypeNotRegistered) then [] else [ErrorE e]
    | None =>
        match uast_NodeAs E n typ with
        | Some e => [Errorf "type check failed for %q: %v" [AStr typ; AErr (Some e)]]
        | None => []
        end
    end.

(** The errors of the token verifiers that reject a tree, in the order of the
    verifiers. *)
Definition verifierErrors (vs : list VerifyToken) (code : string) (ua : Node)
    : list Logged :=
  omap (λ v, ErrorE <$> Verify v code ua) vs.

(** The test state with more logged. *)
Definition withLogged (more : list Logged) (t : T) : T :=
  {| world := world t; logged := logged t ++ more |}.

(** A test body only adds to the log. *)
Definition growsLog {A} (m : M A) : Prop :=
  ∀ t, logged t `prefix_of` logged (m t).1.

(** The nodes of a tree in pre-order. *)
Fixpoint preorder (n : Node) : list Node :=
  n :: match n with
       | NObject fields => flat_map (fun kv => preorder (snd kv)) fields
       | NArray elems => flat_map preorder elems
       | _ => []
       end.

(** The tag a node counts under: its type tag with the namespace prefix
    stripped when it carries the pipeline's namespace. *)
Definition strippedType (ns : string) (n : Node) : string :=
  let typ := TypeOf n in
  if negb (eqb ns "") && HasPrefix typ (ns +:+ ":") then TrimPrefix typ (ns +:+ ":")
  else typ.

(** The number of nodes of a list that carry a type tag and count under
    [tag]. *)
Definition occurrences (ns tag : string) (l : list Node) : nat :=
  length (filter (λ n, TypeOf n ≠ "" ∧ strippedType ns n = tag) l).

(** The message the forbidden-type scan logs for a tag and its count. *)
Definition blacklisted (typ : string) (cnt : Z) : Logged :=
  Errorf "blacklisted nodes of type %q (%d) found in the tree" [AStr typ; AInt cnt].

(** What the forbidden-type scan of [ua] appends to the log of [t]. *)
Definition scanReport (E : Env) (tr : Transforms) (blacklist : list string)
    (ua : Node) (t : T) : list Logged :=
  drop (length (logged t)) (logged (blacklistScan E tr blacklist ua t).1).

(** Tags in lexicographic order. *)
Definition lexSorted (tags : list string) : Prop := Sorted String.le tags.

(** The tags a list of scan messages names, in order. *)
Definition reportedTags (report : list Logged) : list string :=
  flat_map (λ msg, match msg with
                   | Errorf _ (AStr typ :: _) => [typ]
                   | _ => []
                   end) report.

(** ** Sample suites

    Small concrete suites, drivers and directories on which the properties
    below are exercised. *)

Module Sample.

Definition syntaxError : Error := {| kind := ErrSyntax; text := "syntax error" |}.
Definition driverFailure : Error := {| kind := ErrDriverFailure; text := "driver died" |}.

Definition tree : Node :=
  NObject [("@type", NString "x:If");
           ("body", NArray [NObject [("@type", NString "Loop")];
                            NObject [("@type", NString "x:If")];
                            NString "leaf"])].

(** A driver that rejects the source text [bad], breaks on [crash], and
    parses [tree] to the tree above and anything else to a leaf. *)
Definition parse (code : string) : Node * option Error :=
  if eqb code "bad" then (NNil, Some syntaxError)
  else if eqb code "crash" then (NNil, Some driverFailure)
  else if eqb code "tree" then (tree, None)
  else (NString code, None).

Definition dr : Native := {| Start := None; Parse := parse |}.

(** A marshaller that renders a leaf as its text. *)
Definition marshal (n : Node) : string * option Error :=
  match n with
  | NString str => (str, None)
  | _ => ("~", None)
  end.

Definition env (order : list (string * Z) → list (string * Z)) : Env :=
  {| filepath_Join := λ dir name, dir +:+ "/" +:+ name;
     uastyml_Marshal := marshal;
     viewer_MarshalUAST := λ _ _ _, ("{}", None);
     uast_NewValue := λ _, Some {| kind := ErrTypeNotRegistered; text := "" |};
     uast_NodeAs := λ _ _, None;
     rangeOrder := order;
     runInDocker := false |}.

Definition E0 : Env := env id.
Definition Erev : Env := env (@rev (string * Z)).

Definition suite (updateNative updateUAST : bool) (blacklist : list string) : Suite :=
  {| Lang := "x"; Ext := ".x"; Path := "./fixtures";
     UpdateNative := updateNative; UpdateUAST := updateUAST;
     WriteViewerJSON := false; WritePreprocessed := false;
     NewDriver := λ _, dr;
     Transforms_ := {| Namespace := "x"; Do := λ _ _ n, (n, None) |};
     BenchName := "";
     Semantic := {| BlacklistTypes := blacklist |};
     Docker := {| Debug := false; Image := "" |};
     VerifyTokens := [] |}.

Definition s0 : Suite := suite false false [].

Definition noDocker (s : Suite) (fs : gmap string string)
    : gmap string string * list (string * StageReport) := (fs, []).

Definition t0 (fs : gmap string string) : T :=
  {| world := {| files := fs; parseErrors := 0 |}; logged := [] |}.

End Sample.

(** * Properties *)

(** ** Strings *)

Lemma append_assoc (a b c : string) : (a +:+ b) +:+ c = a +:+ (b +:+ c).
Proof.
  induction a as [|x a IH]; [reflexivity|].
  change (String x ((a +:+ b) +:+ c) = String x (a +:+ b +:+ c)). by f_equal.
Qed.

Lemma length_append (a b : string) :
  String.length (a +:+ b) = (String.length a + String.length b)%nat.
Proof.
  induction a as [|x a IH]; [reflexivity|].
  change (S (String.length (a +:+ b)) = S (String.length a + String.length b)).
  by f_equal.
Qed.

Lemma append_ne_self (a c : string) : c ≠ "" → a +:+ c ≠ a.
Proof.
  intros Hc Heq. apply (f_equal String.length) in Heq.
  rewrite length_append in Heq. destruct c; [done | simpl in Heq; lia].
Qed.

Lemma append_inj_l (a b c : string) : a +:+ b = a +:+ c → b = c.
Proof. apply String.app_inj. Qed.

Example strings_on_fixture_names :
  HasSuffix "a.go" ".go" = true
  ∧ HasSuffix "a.go.native" ".go" = false
  ∧ TrimSuffix "a.go" ".go" = "a"
  ∧ TrimPrefix "x:If" "x:" = "If"
  ∧ Contains "x_syntax_error.go" syntaxErrTestName = true
  ∧ Contains "x.go" syntaxErrTestName = false
  ∧ TrimLeft "./fixtures/a.go" "./" = "fixtures/a.go"
  ∧ isTest "a.go" ".go" = ("a", true)
  ∧ isTest "a.go.native" ".go" = ("", false).
Proof. repeat split; reflexivity. Qed.

Lemma eqb_true (a b : string) : eqb a b = true ↔ a = b.
Proof. unfold eqb. apply bool_decide_eq_true. Qed.

Lemma eqb_false (a b : string) : eqb a b = false ↔ a ≠ b.
Proof. unfold eqb. apply bool_decide_eq_false. Qed.

(** ** Golden reconciliation, case by case *)

Section Reconcile.

Variable E : Env.
Variables (s : Suite) (update : bool) (suf failureMessage skipMessage : string).
Variables (fname got : string) (t : T).

Let golden := fname +:+ suf.
Let exp := default "" (files (world t) !! golden).

(** No golden, or an empty one: the produced text becomes the golden. *)
Lemma reconcile_generate :
  exp = "" →
  reconcile E s update suf failureMessage skipMessage fname got t
  = (withFiles (<[golden := got]> (files (world t))) t,
     inr (Skip "no test file found - generating")).
Proof.
  intros He. unfold reconcile, mbind, M_bind, readFixturesFile; simpl.
  fold golden. fold exp. rewrite He. reflexivity.
Qed.

(** Equal to the golden: the pending-diff file goes, the test goes on. *)
Lemma reconcile_equal :
  exp ≠ "" → exp = got →
  reconcile E s update suf failureMessage skipMessage fname got t
  = (withFiles (delete (golden +:+ gotSuffix) (files (world t))) t, inl tt).
Proof.
  intros Hne He. unfold reconcile, mbind, M_bind, readFixturesFile; simpl.
  fold golden. fold exp.
  apply eqb_false in Hne. rewrite Hne; simpl.
  unfold ObjectsAreEqual. apply eqb_true in He. rewrite He; simpl.
  reflexivity.
Qed.

(** A mismatch with the update flag off: the produced text goes to the
    pending-diff file and the test stops, naming both files. *)
Lemma reconcile_mismatch :
  exp ≠ "" → exp ≠ got → update = false →
  reconcile E s update suf failureMessage skipMessage fname got t
  = (withFiles (<[fname +:+ (suf +:+ gotSuffix) := got]> (files (world t))) t,
     inr (RequireFail failureMessage
            "run diff command to debug:\ndiff -d ./%s ./%s"
            [AStr (TrimLeft (fixturesPath E s (fname +:+ (suf +:+ gotSuffix))) "./");
             AStr (TrimLeft (fixturesPath E s golden) "./")])).
Proof.
  intros Hne Hd ->. unfold reconcile, mbind, M_bind, readFixturesFile; simpl.
  fold golden. fold exp.
  apply eqb_false in Hne. rewrite Hne; simpl.
  unfold ObjectsAreEqual. apply eqb_false in Hd. rewrite Hd; simpl.
  reflexivity.
Qed.

(** A mismatch with the update flag on: the golden is replaced and the test
    is skipped. *)
Lemma reconcile_update :
  exp ≠ "" → exp ≠ got → update = true →
  reconcile E s update suf failureMessage skipMessage fname got t
  = (withFiles (<[golden := got]> (files (world t))) t, inr (Skip skipMessage)).
Proof.
  intros Hne Hd ->. unfold reconcile, mbind, M_bind, readFixturesFile; simpl.
  fold golden. fold exp.
  apply eqb_false in Hne. rewrite Hne; simpl.
  unfold ObjectsAreEqual. apply eqb_false in Hd. rewrite Hd; simpl.
  reflexivity.
Qed.

End Reconcile.

(** ** What reconciliation does to the golden and the pending-diff file *)

(** C3 (as amended): with the update flag off, a non-empty golden that
    differs from the produced text is left as it is, the produced text is
    written to the pending-diff file (golden name plus [_got]), nothing else
    in the directory changes, and the test stops with a failure that names
    both files. *)
Theorem mismatch_without_update (E : Env) (s : Suite)
    (suf failureMessage skipMessage fname got exp : string) (t : T) :
  files (world t) !! (fname +:+ suf) = Some exp →
  exp ≠ "" → exp ≠ got →
  let res := reconcile E s false suf failureMessage skipMessage fname got t in
  files (world res.1) !! (fname +:+ suf) = Some exp
  ∧ files (world res.1) !! ((fname +:+ suf) +:+ gotSuffix) = Some got
  ∧ (∀ k, k ≠ (fname +:+ suf) +:+ gotSuffix →
          files (world res.1) !! k = files (world t) !! k)
  ∧ res.2 = inr (RequireFail failureMessage
                   "run diff command to debug:\ndiff -d ./%s ./%s"
                   [AStr (TrimLeft (fixturesPath E s ((fname +:+ suf) +:+ gotSuffix)) "./");
                    AStr (TrimLeft (fixturesPath E s (fname +:+ suf)) "./")]).
Proof.
  intros Hg Hne Hd res. subst res.
  rewrite reconcile_mismatch by (rewrite ?Hg; done).
  rewrite <- (append_assoc fname suf gotSuffix). simpl.
  repeat split.
  - rewrite lookup_insert_ne; [done|]. apply append_ne_self. done.
  - apply lookup_insert_eq.
  - intros k Hk. by rewrite lookup_insert_ne.
Qed.

Lemma mismatch_without_update_witness :
  let res := reconcile Sample.E0 Sample.s0 false nativeExt "unexpected" "forced"
               "a.x" "B" (Sample.t0 {["a.x.native" := "A"]}) in
  files (world res.1) !! "a.x.native" = Some "A"
  ∧ files (world res.1) !! "a.x.native_got" = Some "B"
  ∧ res.2 = inr (RequireFail "unexpected"
                   "run diff command to debug:\ndiff -d ./%s ./%s"
                   [AStr "fixtures/a.x.native_got"; AStr "fixtures/a.x.native"]).
Proof.
  pose proof (mismatch_without_update Sample.E0 Sample.s0 nativeExt "unexpected" "forced"
                "a.x" "B" "A" (Sample.t0 {["a.x.native" := "A"]})) as H.
  destruct H as (H1 & H2 & _ & H4); [reflexivity | done | done |].
  split; [exact H1 | split; [exact H2 | exact H4]].
Defined.

(** C3, as stated, fails on an existing but empty golden: the native stage,
    update flag off, overwrites it with the produced text, writes no
    pending-diff file and skips the subtest. *)
Lemma mismatch_without_update_empty_golden :
  let fs : gmap string string := {["a.x" := "B"; "a.x.native" := ""]} in
  let res := testFixturesNative Sample.E0 Sample.s0 fs in
  fs !! "a.x.native" = Some ""
  ∧ ¬ (res.1 !! "a.x.native" = Some ""
       ∧ res.1 !! "a.x.native_got" = Some "B"
       ∧ ∃ r, subtests res.2 = [("a", r)] ∧ failed r = true).
Proof.
  vm_compute. split; [reflexivity|]. intros (H & _). discriminate H.
Qed.

(** ** Which files a test body touches *)

Section Frame.

Variable E : Env.
Context {A B : Type}.
Variables (k v : string).

Lemma keeps_bind (m : M A) (f : A → M B) :
  keeps k v m → (∀ a, keeps k v (f a)) → keeps k v (m ≫= f).
Proof.
  intros Hm Hf t Ht. unfold mbind, M_bind.
  specialize (Hm t Ht). destruct (m t) as [t' [a|fin]]; simpl in *.
  - by apply Hf.
  - done.
Qed.

Lemma keepsWorld_keeps (m : M A) : keepsWorld m → keeps k v m.
Proof. intros Hm t Ht. by rewrite Hm. Qed.

Lemma keepsWorld_bind (m : M A) (f : A → M B) :
  keepsWorld m → (∀ a, keepsWorld (f a)) → keepsWorld (m ≫= f).
Proof.
  intros Hm Hf t. unfold mbind, M_bind.
  specialize (Hm t). destruct (m t) as [t' [a|fin]]; simpl in *.
  - by rewrite Hf.
  - done.
Qed.

Lemma keepsWorld_ret (a : A) : keepsWorld (mret a : M A).
Proof. done. Qed.

Lemma keepsWorld_stop (fin : Finish) : keepsWorld (stop fin : M A).
Proof. done. Qed.

Lemma keeps_ret (a : A) : keeps k v (mret a : M A).
Proof. intros t Ht. exact Ht. Qed.

Lemma keeps_stop (fin : Finish) : keeps k v (stop fin : M A).
Proof. intros t Ht. exact Ht. Qed.

End Frame.

Section FramePrimitives.

Variable E : Env.
Variables (k v : string).

Lemma keepsWorld_when (b : bool) (m : M unit) : keepsWorld m → keepsWorld (when b m).
Proof. destruct b; [done | intros _; apply keepsWorld_ret]. Qed.

Lemma keeps_when (b : bool) (m : M unit) : keeps k v m → keeps k v (when b m).
Proof. destruct b; [done | intros _; apply keeps_ret]. Qed.

Lemma keepsWorld_Errorf format args : keepsWorld (t_Errorf format args).
Proof. done. Qed.

Lemma keepsWorld_Error e : keepsWorld (t_Error e).
Proof. done. Qed.

Lemma keepsWorld_require_NoError err : keepsWorld (require_NoError err).
Proof. by destruct err. Qed.

Lemma keepsWorld_require_True cond format args :
  keepsWorld (require_True cond format args).
Proof. by destruct cond. Qed.

Lemma keepsWorld_read s name : keepsWorld (readFixturesFile s name).
Proof. done. Qed.

Lemma keepsWorld_load : keepsWorld atomic_LoadUint32.
Proof. done. Qed.

Lemma keeps_add delta : keeps k v (atomic_AddUint32 delta).
Proof. intros t Ht. exact Ht. Qed.

Lemma keeps_write s name data : name ≠ k → keeps k v (writeFixturesFile s name data).
Proof. intros Hne t Ht. simpl. by rewrite lookup_insert_ne. Qed.

Lemma keeps_delete s name : name ≠ k → keeps k v (deleteFixturesFile s name).
Proof. intros Hne t Ht. simpl. by rewrite lookup_delete_ne. Qed.

Lemma keeps_writeViewerJSON s name code ast :
  name +:+ ".json" ≠ k → keeps k v (writeViewerJSON E s name code ast).
Proof.
  intros Hne. unfold writeViewerJSON.
  destruct (viewer_MarshalUAST E (Lang s) code ast) as [data err].
  apply keeps_bind; [apply keepsWorld_keeps, keepsWorld_require_NoError|].
  intros _. by apply keeps_write.
Qed.

End FramePrimitives.

(** ** Tree walks *)

Section Walks.

Context {S : Type}.
Variable walk : Node → S → bool * S.

(** What holds of the state before a walk and is kept by the callback holds
    after the walk. *)
Lemma WalkPreOrder_invariant (Inv : S → Prop) :
  (∀ n st, Inv st → Inv (walk n st).2) →
  ∀ root st, Inv st → Inv (WalkPreOrder walk root st).
Proof.
  intros Hwalk root.
  induction root as [| | | | | |elems IH|fields IH] using Node_nested_ind;
    intros st Hst; simpl;
    match goal with
    | |- context [walk ?n st] =>
        pose proof (Hwalk n st Hst) as Hw; destruct (walk n st) as [cont st1]
    end; simpl in Hw; destruct cont; try done.
  - clear Hst st. revert st1 Hw.
    induction IH as [|x l Hx _ IHl]; intros st1 Hw; simpl; [done|].
    apply IHl. by apply Hx.
  - clear Hst st. revert st1 Hw.
    induction IH as [|x l Hx _ IHl]; intros st1 Hw; simpl; [done|].
    apply IHl. by apply Hx.
Qed.

(** A walk whose callback always continues is a left fold over the nodes in
    pre-order. *)
Lemma WalkPreOrder_fold :
  (∀ n st, (walk n st).1 = true) →
  ∀ root st,
    WalkPreOrder walk root st = fold_left (λ acc n, (walk n acc).2) (preorder root) st.
Proof.
  intros Hcont root.
  induction root as [| | | | | |elems IH|fields IH] using Node_nested_ind;
    intros st; simpl;
    match goal with
    | |- context [walk ?n st] =>
        pose proof (Hcont n st) as Hc; destruct (walk n st) as [cont st1]
    end; simpl in Hc; subst cont; try done.
  - generalize st1. clear st.
    induction IH as [|x l Hx _ IHl]; intros st; simpl; [done|].
    rewrite fold_left_app, <- Hx. apply IHl.
  - generalize st1. clear st.
    induction IH as [|x l Hx _ IHl]; intros st; simpl; [done|].
    rewrite fold_left_app, <- Hx. apply IHl.
Qed.

End Walks.

(** ** The scans leave the directory and the counter alone *)

Section ScansFrame.

Variable E : Env.

Lemma keepsWorld_reportBlack entries foundBlack :
  keepsWorld (reportBlack entries foundBlack).
Proof.
  revert foundBlack. induction entries as [|[typ cnt] rest IH]; intros foundBlack.
  - apply keepsWorld_ret.
  - simpl. destruct (cnt =? 0); [apply IH|].
    apply keepsWorld_bind; [apply keepsWorld_Errorf | intros _; apply IH].
Qed.

Lemma keepsWorld_blacklistScan tr blacklist ua :
  keepsWorld (blacklistScan E tr blacklist ua).
Proof.
  unfold blacklistScan. apply keepsWorld_when.
  apply keepsWorld_bind; [apply keepsWorld_reportBlack | intros _; apply keepsWorld_ret].
Qed.

Lemma checkType_world n t : world (checkType E n t).2 = world t.
Proof.
  unfold checkType. destruct (eqb (TypeOf n) ""); [done|].
  destruct (Is ErrTypeNotRegistered _); [done|].
  destruct (uast_NewValue E _); [done|].
  by destruct (uast_NodeAs E _ _).
Qed.

Lemma keepsWorld_conformanceScan ua : keepsWorld (conformanceScan E ua).
Proof.
  intros t. unfold conformanceScan. simpl.
  apply (WalkPreOrder_invariant (checkType E) (λ t', world t' = world t)); [|done].
  intros n st Hst. by rewrite checkType_world.
Qed.

Lemma keepsWorld_verifyTokens vs code ua : keepsWorld (verifyTokens vs code ua).
Proof.
  induction vs as [|v rest IH]; [apply keepsWorld_ret|].
  simpl. apply keepsWorld_bind; [|intros _; apply IH].
  destruct (Verify v code ua); [apply keepsWorld_Error | apply keepsWorld_ret].
Qed.

End ScansFrame.

(** ** A golden is only replaced under the update flag *)

Section GoldenKept.

Variable E : Env.
Variables (s : Suite) (dr : Native) (fname exp : string).
Hypothesis exp_nonempty : exp ≠ "".

Lemma keeps_reconcile suf failureMessage skipMessage got :
  keeps (fname +:+ suf) exp
    (reconcile E s false suf failureMessage skipMessage fname got).
Proof.
  intros t Ht.
  destruct (decide (exp = got)) as [Heq|Hne].
  - rewrite reconcile_equal by (rewrite ?Ht; done). simpl.
    rewrite lookup_delete_ne; [done|]. by apply append_ne_self.
  - rewrite reconcile_mismatch by (rewrite ?Ht; done). simpl.
    rewrite lookup_insert_ne; [done|].
    rewrite <- append_assoc. by apply append_ne_self.
Qed.

Lemma keeps_testNativeBody :
  UpdateNative s = false →
  keeps (fname +:+ nativeExt) exp (testNativeBody E s dr fname).
Proof.
  intros Hupd. unfold testNativeBody. rewrite Hupd.
  apply keeps_bind; [apply keepsWorld_keeps, keepsWorld_load | intros n].
  apply keeps_bind; [apply keeps_when, keeps_stop | intros _].
  apply keeps_bind; [apply keepsWorld_keeps, keepsWorld_read | intros code].
  destruct (Parse dr code) as [resp err].
  destruct (Contains fname syntaxErrTestName).
  - apply keeps_bind; [apply keepsWorld_keeps, keepsWorld_require_True|].
    intros _. apply keeps_stop.
  - apply keeps_bind; [apply keeps_when, keeps_add | intros _].
    apply keeps_bind; [apply keepsWorld_keeps, keepsWorld_require_NoError | intros _].
    destruct (marshalNative E resp) as [js err'].
    apply keeps_bind; [apply keepsWorld_keeps, keepsWorld_require_NoError | intros _].
    apply keeps_reconcile.
Qed.

Lemma keeps_testUASTBody mode suf blacklist :
  UpdateUAST s = false →
  fname +:+ preExt ≠ fname +:+ suf →
  keeps (fname +:+ suf) exp (testUASTBody E s dr mode suf blacklist fname).
Proof.
  intros Hupd Hpre. unfold testUASTBody. rewrite Hupd.
  apply keeps_bind; [apply keepsWorld_keeps, keepsWorld_load | intros n].
  apply keeps_bind; [apply keeps_when, keeps_stop | intros _].
  apply keeps_bind; [apply keepsWorld_keeps, keepsWorld_read | intros code].
  destruct (Parse dr code) as [ast err].
  apply keeps_bind; [apply keeps_when, keeps_add | intros _].
  apply keeps_bind.
  { apply keeps_when, keeps_bind; [apply keepsWorld_keeps, keepsWorld_require_True|].
    intros _. apply keeps_stop. }
  intros _.
  apply keeps_bind; [apply keepsWorld_keeps, keepsWorld_require_NoError | intros _].
  apply keeps_bind.
  { apply keeps_when. destruct (Do _ ModePreprocessed code ast) as [ua err'].
    apply keeps_bind; [apply keepsWorld_keeps, keepsWorld_require_NoError | intros _].
    destruct (marshalUAST E ua) as [un err''].
    apply keeps_bind; [apply keepsWorld_keeps, keepsWorld_require_NoError | intros _].
    by apply keeps_write. }
  intros _. destruct (Do _ mode code ast) as [ua err'].
  apply keeps_bind; [apply keepsWorld_keeps, keepsWorld_require_NoError | intros _].
  apply keeps_bind; [apply keepsWorld_keeps, keepsWorld_blacklistScan | intros _].
  apply keeps_bind;
    [apply keepsWorld_keeps, keepsWorld_when, keepsWorld_conformanceScan | intros _].
  apply keeps_bind;
    [apply keepsWorld_keeps, keepsWorld_when, keepsWorld_verifyTokens | intros _].
  destruct (marshalUAST E ua) as [un err''].
  apply keeps_bind; [apply keepsWorld_keeps, keepsWorld_require_NoError | intros _].
  apply keeps_bind; [apply keeps_reconcile | intros _].
  apply keeps_when, keeps_writeViewerJSON. by apply append_ne_self.
Qed.

End GoldenKept.

(** C4 (as amended): with the update flag on, a golden that differs from the
    produced text is replaced by it and the test is skipped, not failed; no
    pending-diff file is written, and one that is already there stays: the
    golden is the only file that changes. *)
Theorem mismatch_with_update (E : Env) (s : Suite)
    (suf failureMessage skipMessage fname got exp : string) (t : T) :
  files (world t) !! (fname +:+ suf) = Some exp →
  exp ≠ got →
  let res := reconcile E s true suf failureMessage skipMessage fname got t in
  files (world res.1) = <[fname +:+ suf := got]> (files (world t))
  ∧ files (world res.1) !! (fname +:+ suf) = Some got
  ∧ files (world res.1) !! ((fname +:+ suf) +:+ gotSuffix)
    = files (world t) !! ((fname +:+ suf) +:+ gotSuffix)
  ∧ logged res.1 = logged t
  ∧ res.2 = inr (Skip (if decide (exp = "") then "no test file found - generating"
                       else skipMessage)).
Proof.
  intros Hg Hd res. subst res.
  assert (Hp : (fname +:+ suf) +:+ gotSuffix ≠ fname +:+ suf)
    by (by apply append_ne_self).
  destruct (decide (exp = "")) as [He|He].
  - rewrite reconcile_generate by (rewrite ?Hg; done). simpl.
    repeat split; [apply lookup_insert_eq | by rewrite lookup_insert_ne].
  - rewrite reconcile_update by (rewrite ?Hg; done). simpl.
    repeat split; [apply lookup_insert_eq | by rewrite lookup_insert_ne].
Qed.

Lemma mismatch_with_update_witness :
  let res := reconcile Sample.E0 (Sample.suite true true []) true nativeExt
               "unexpected" "forced" "a.x" "B"
               (Sample.t0 {["a.x.native" := "A"]}) in
  files (world res.1) !! "a.x.native" = Some "B"
  ∧ files (world res.1) !! "a.x.native_got" = None
  ∧ res.2 = inr (Skip "forced").
Proof.
  pose proof (mismatch_with_update Sample.E0 (Sample.suite true true []) nativeExt
                "unexpected" "forced" "a.x" "B" "A"
                (Sample.t0 {["a.x.native" := "A"]})) as H.
  destruct H as (_ & H2 & H3 & _ & H5); [reflexivity | done |].
  split; [exact H2 | split; [exact H3 | exact H5]].
Defined.

(** C4, as stated, fails when a pending-diff file is left from an earlier
    run: the native stage, update flag on, replaces the golden and skips, and
    the pending-diff file is still there afterwards. *)
Lemma mismatch_with_update_stale_pending :
  let fs : gmap string string :=
    {["a.x" := "B"; "a.x.native" := "A"; "a.x.native_got" := "B"]} in
  let res := testFixturesNative Sample.E0 (Sample.suite true true []) fs in
  fs !! "a.x.native" = Some "A"
  ∧ res.1 !! "a.x.native" = Some "B"
  ∧ subtests res.2 = [("a", {| errors := []; finish := Skip "force update of native fixtures" |})]
  ∧ ¬ (res.1 !! "a.x.native_got" = None).
Proof.
  vm_compute. repeat split; discriminate.
Qed.

(** C5 (as amended): with the update flag off, a golden that exists and is
    not empty keeps its content, through reconciliation and through the whole
    subtest of its fixture, in the native, annotated and semantic stages. *)
Theorem golden_kept_without_update (E : Env) (s : Suite) (dr : Native)
    (fname exp : string) :
  exp ≠ "" →
  (∀ suf failureMessage skipMessage got,
     keeps (fname +:+ suf) exp
       (reconcile E s false suf failureMessage skipMessage fname got))
  ∧ (UpdateNative s = false →
     keeps (fname +:+ nativeExt) exp (testNativeBody E s dr fname))
  ∧ (UpdateUAST s = false →
     keeps (fname +:+ uastExt) exp
       (testUASTBody E s dr ModeAnnotated uastExt [] fname)
     ∧ keeps (fname +:+ highExt) exp
         (testUASTBody E s dr ModeSemantic highExt (BlacklistTypes (Semantic s)) fname)).
Proof.
  intros Hne. split; [|split].
  - intros. by apply keeps_reconcile.
  - intros. by apply keeps_testNativeBody.
  - intros Hupd. split; apply keeps_testUASTBody; try done.
    + intros Heq. apply append_inj_l in Heq. discriminate Heq.
    + intros Heq. apply append_inj_l in Heq. discriminate Heq.
Qed.

Lemma golden_kept_without_update_witness :
  files (world (testNativeBody Sample.E0 Sample.s0 Sample.dr "a.x"
                  (Sample.t0 {["a.x" := "B"; "a.x.native" := "A"]})).1)
    !! "a.x.native" = Some "A".
Proof.
  pose proof (golden_kept_without_update Sample.E0 Sample.s0 Sample.dr "a.x" "A") as H.
  destruct H as (_ & H & _); [done|].
  apply (H eq_refl (Sample.t0 {["a.x" := "B"; "a.x.native" := "A"]})).
  reflexivity.
Defined.

(** C5, as stated, fails on an existing but empty golden: the native stage,
    update flag off, replaces its content with the produced text. *)
Lemma golden_kept_without_update_empty_golden :
  let fs : gmap string string := {["a.x" := "B"; "a.x.native" := ""]} in
  let res := testFixturesNative Sample.E0 Sample.s0 fs in
  UpdateNative Sample.s0 = false
  ∧ fs !! "a.x.native" = Some ""
  ∧ res.1 !! "a.x.native" = Some "B"
  ∧ res.1 !! "a.x.native" ≠ fs !! "a.x.native".
Proof.
  vm_compute. repeat split; discriminate.
Qed.

(** C6 (as amended): when the produced text equals an existing, non-empty
    golden, reconciliation logs nothing and lets the test go on, and the
    directory afterwards is the one before with the pending-diff file of that
    golden removed. *)
Theorem reconcile_equal_passes (E : Env) (s : Suite) (update : bool)
    (suf failureMessage skipMessage fname got : string) (t : T) :
  files (world t) !! (fname +:+ suf) = Some got →
  got ≠ "" →
  reconcile E s update suf failureMessage skipMessage fname got t
  = (withFiles (delete ((fname +:+ suf) +:+ gotSuffix) (files (world t))) t, inl tt).
Proof.
  intros Hg Hne. rewrite reconcile_equal by (rewrite ?Hg; done). reflexivity.
Qed.

Lemma reconcile_equal_passes_witness :
  reconcile Sample.E0 Sample.s0 false nativeExt "unexpected" "forced" "a.x" "A"
    (Sample.t0 {["a.x.native" := "A"; "a.x.native_got" := "B"]})
  = (Sample.t0 {["a.x.native" := "A"]}, inl tt).
Proof.
  rewrite (reconcile_equal_passes Sample.E0 Sample.s0 false nativeExt "unexpected"
             "forced" "a.x" "A"); [| reflexivity | done].
  vm_compute. reflexivity.
Defined.

(** C6, as stated, fails when the golden and the produced text are both
    empty: the native stage skips the subtest instead of passing it, and a
    pending-diff file left from an earlier run is not deleted. *)
Lemma reconcile_equal_empty_golden :
  let fs : gmap string string :=
    {["a.x" := ""; "a.x.native" := ""; "a.x.native_got" := "old"]} in
  let res := testFixturesNative Sample.E0 Sample.s0 fs in
  fs !! "a.x.native" = Some (marshalNative Sample.E0 (Sample.parse "").1).1
  ∧ subtests res.2
    = [("a", {| errors := []; finish := Skip "no test file found - generating" |})]
  ∧ res.1 !! "a.x.native_got" = Some "old".
Proof.
  vm_compute. repeat split.
Qed.

(** ** The failure counter and the ways a subtest stops *)

Lemma bind_apply {A B} (m : M A) (f : A → M B) (t : T) :
  (m ≫= f) t = match m t with
               | (t', inl a) => f a t'
               | (t', inr fin) => (t', inr fin)
               end.
Proof. reflexivity. Qed.

Section Counter.

Variable E : Env.
Context {A B : Type}.

Lemma keepsCounter_bind (m : M A) (f : A → M B) :
  keepsCounter m → (∀ a, keepsCounter (f a)) → keepsCounter (m ≫= f).
Proof.
  intros Hm Hf t. rewrite bind_apply.
  specialize (Hm t). destruct (m t) as [t' [a|fin]]; simpl in *.
  - by rewrite Hf.
  - done.
Qed.

Lemma keepsWorld_keepsCounter (m : M A) : keepsWorld m → keepsCounter m.
Proof. intros Hm t. by rewrite Hm. Qed.

Lemma finishes_bind (R : Finish → Prop) (m : M A) (f : A → M B) :
  finishes R m → (∀ a, finishes R (f a)) → finishes R (m ≫= f).
Proof.
  intros Hm Hf t fin. rewrite bind_apply.
  specialize (Hm t). destruct (m t) as [t' [a|fin']]; simpl in *.
  - apply Hf.
  - intros [= <-]. by apply Hm.
Qed.

Lemma goesOn_finishes (R : Finish → Prop) (m : M A) : goesOn m → finishes R m.
Proof. intros Hm t fin Hfin. destruct (Hm t) as [a Ha]. congruence. Qed.

Lemma finishes_stop (R : Finish → Prop) (fin : Finish) :
  R fin → finishes R (stop fin : M A).
Proof. intros HR t fin' [= <-]. done. Qed.

Lemma finishes_ret (R : Finish → Prop) (a : A) : finishes R (mret a : M A).
Proof. intros t fin. discriminate. Qed.

End Counter.

Section CounterPrimitives.

Variable E : Env.

Lemma keepsCounter_when (b : bool) (m : M unit) :
  keepsCounter m → keepsCounter (when b m).
Proof. destruct b; [done | intros _ t; reflexivity]. Qed.

Lemma keepsCounter_write s name data : keepsCounter (writeFixturesFile s name data).
Proof. intros t. reflexivity. Qed.

Lemma keepsCounter_delete s name : keepsCounter (deleteFixturesFile s name).
Proof. intros t. reflexivity. Qed.

Lemma keepsCounter_stop {A} fin : keepsCounter (stop fin : M A).
Proof. intros t. reflexivity. Qed.

Lemma keepsCounter_writeViewerJSON s name code ast :
  keepsCounter (writeViewerJSON E s name code ast).
Proof.
  unfold writeViewerJSON. destruct (viewer_MarshalUAST E (Lang s) code ast) as [data err].
  apply keepsCounter_bind;
    [apply keepsWorld_keepsCounter, keepsWorld_require_NoError|].
  intros _. apply keepsCounter_write.
Qed.

Lemma keepsCounter_reconcile s update suf failureMessage skipMessage fname got :
  keepsCounter (reconcile E s update suf failureMessage skipMessage fname got).
Proof.
  unfold reconcile.
  apply keepsCounter_bind; [apply keepsWorld_keepsCounter, keepsWorld_read | intros exp].
  apply keepsCounter_bind.
  { apply keepsCounter_when, keepsCounter_bind; [apply keepsCounter_write|].
    intros _. apply keepsCounter_stop. }
  intros _. destruct (negb (ObjectsAreEqual exp got)); [|apply keepsCounter_delete].
  apply keepsCounter_bind; [apply keepsCounter_write | intros _].
  destruct (negb update); apply keepsCounter_stop.
Qed.

Lemma finishes_when (R : Finish → Prop) (b : bool) (m : M unit) :
  finishes R m → finishes R (when b m).
Proof. destruct b; [done | intros _; apply finishes_ret]. Qed.

Lemma finishes_require_NoError (R : Finish → Prop) err :
  (∀ e, R (RequireNoError e)) → finishes R (require_NoError err).
Proof. intros HR. destruct err; [by apply finishes_stop | apply finishes_ret]. Qed.

Lemma finishes_require_True (R : Finish → Prop) cond format args :
  R (RequireTrue format args) → finishes R (require_True cond format args).
Proof. intros HR. destruct cond; [apply finishes_ret | by apply finishes_stop]. Qed.

Lemma goesOn_setFiles f : goesOn (setFiles f).
Proof. intros t. by exists tt. Qed.

Lemma goesOn_read s name : goesOn (readFixturesFile s name).
Proof. intros t. by eexists. Qed.

Lemma goesOn_Errorf format args : goesOn (t_Errorf format args).
Proof. intros t. by exists tt. Qed.

Lemma goesOn_Error e : goesOn (t_Error e).
Proof. intros t. by exists tt. Qed.

Lemma goesOn_add delta : goesOn (atomic_AddUint32 delta).
Proof. intros t. by exists tt. Qed.

Lemma goesOn_reportBlack entries foundBlack : goesOn (reportBlack entries foundBlack).
Proof.
  revert foundBlack. induction entries as [|[typ cnt] rest IH]; intros foundBlack t.
  - by eexists.
  - simpl. destruct (cnt =? 0); [apply IH|].
    rewrite bind_apply. simpl. apply IH.
Qed.

Lemma goesOn_blacklistScan tr blacklist ua : goesOn (blacklistScan E tr blacklist ua).
Proof.
  intros t. unfold blacklistScan.
  destruct (negb _); simpl; [|by exists tt].
  rewrite bind_apply.
  destruct (goesOn_reportBlack
              (rangeOrder E (map_to_list
                 (WalkPreOrder (countBlack tr) ua
                    (fold_left (λ m typ, <[typ:=0]> m) blacklist ∅))))
              (WalkPreOrder (countBlack tr) ua
                 (fold_left (λ m typ, <[typ:=0]> m) blacklist ∅)) t) as [a Ha].
  destruct (reportBlack _ _ t) as [t' [a'|fin]]; simpl in *; [by exists tt | done].
Qed.

Lemma goesOn_conformanceScan ua : goesOn (conformanceScan E ua).
Proof. intros t. by exists tt. Qed.

Lemma goesOn_verifyTokens vs code ua : goesOn (verifyTokens vs code ua).
Proof.
  induction vs as [|v rest IH]; intros t; [by exists tt|].
  simpl. rewrite bind_apply.
  destruct (Verify v code ua); simpl; apply IH.
Qed.

Lemma goesOn_when (b : bool) (m : M unit) : goesOn m → goesOn (when b m).
Proof. destruct b; [done | intros _ t; by exists tt]. Qed.

(** Reconciliation never stops a test by [SkipNow]. *)
Lemma finishes_reconcile s update suf failureMessage skipMessage fname got :
  finishes (λ fin, fin ≠ SkipNow)
    (reconcile E s update suf failureMessage skipMessage fname got).
Proof.
  unfold reconcile.
  apply finishes_bind; [apply goesOn_finishes, goesOn_read | intros exp].
  apply finishes_bind.
  { apply finishes_when, finishes_bind;
      [apply goesOn_finishes, goesOn_setFiles | intros _; by apply finishes_stop]. }
  intros _. destruct (negb (ObjectsAreEqual exp got));
    [|apply goesOn_finishes, goesOn_setFiles].
  apply finishes_bind; [apply goesOn_finishes, goesOn_setFiles | intros _].
  destruct (negb update); by apply finishes_stop.
Qed.

End CounterPrimitives.

(** ** The two subtest bodies *)

Section Bodies.

Variable E : Env.
Variables (s : Suite) (dr : Native) (fname : string).
Variables (mode : Mode) (suf : string) (blacklist : list string).
Variable t : T.

Let code := default "" (files (world t) !! fname).
Let err := (Parse dr code).2.

(** The test state with one more counted failure. *)
Let bumped : T :=
  {| world := {| files := files (world t);
                 parseErrors := uint32_wrap (parseErrors (world t) + 1) |};
     logged := logged t |}.

(** The assertion both bodies make on a syntax-error fixture. *)
Let syntaxVerdict : Finish :=
  if notNil err && negb (Is ErrDriverFailure err) then Returned
  else RequireTrue "unexpected error: %v" [AErr err].

Lemma testNativeBody_exhausted :
  maxParseErrors ≤ parseErrors (world t) →
  testNativeBody E s dr fname t = (t, inr SkipNow).
Proof.
  intros Hc. unfold testNativeBody. rewrite bind_apply. simpl.
  rewrite bind_apply.
  destruct (Z.leb_spec maxParseErrors (parseErrors (world t))); [done | lia].
Qed.

Lemma testUASTBody_exhausted :
  maxParseErrors ≤ parseErrors (world t) →
  testUASTBody E s dr mode suf blacklist fname t = (t, inr SkipNow).
Proof.
  intros Hc. unfold testUASTBody. rewrite bind_apply. simpl.
  rewrite bind_apply.
  destruct (Z.leb_spec maxParseErrors (parseErrors (world t))); [done | lia].
Qed.

Lemma testNativeBody_syntax :
  parseErrors (world t) < maxParseErrors →
  Contains fname syntaxErrTestName = true →
  testNativeBody E s dr fname t = (t, inr syntaxVerdict).
Proof.
  intros Hc Hsyn. unfold testNativeBody. rewrite bind_apply. simpl.
  rewrite bind_apply.
  destruct (Z.leb_spec maxParseErrors (parseErrors (world t))); [lia|]. simpl.
  rewrite bind_apply. simpl. fold code.
  subst syntaxVerdict err. destruct (Parse dr code) as [resp e]. simpl.
  rewrite Hsyn. rewrite bind_apply.
  by destruct (notNil e && negb (Is ErrDriverFailure e)).
Qed.

Lemma testUASTBody_syntax :
  parseErrors (world t) < maxParseErrors →
  Contains fname syntaxErrTestName = true →
  testUASTBody E s dr mode suf blacklist fname t
  = (if notNil err then bumped else t, inr syntaxVerdict).
Proof.
  intros Hc Hsyn. unfold testUASTBody. rewrite bind_apply. simpl.
  rewrite bind_apply.
  destruct (Z.leb_spec maxParseErrors (parseErrors (world t))); [lia|]. simpl.
  rewrite bind_apply. simpl. fold code.
  subst syntaxVerdict bumped err. destruct (Parse dr code) as [resp e]. simpl.
  rewrite Hsyn. rewrite bind_apply.
  destruct e as [e|]; simpl; rewrite bind_apply; simpl; [|done].
  rewrite bind_apply. by destruct (negb _).
Qed.

(** What the native body does to the counter. *)
Lemma testNativeBody_counter :
  parseErrors (world t) < maxParseErrors →
  parseErrors (world (testNativeBody E s dr fname t).1)
  = if negb (Contains fname syntaxErrTestName) && notNil err
    then uint32_wrap (parseErrors (world t) + 1)
    else parseErrors (world t).
Proof.
  intros Hc. destruct (Contains fname syntaxErrTestName) eqn:Hsyn.
  { by rewrite testNativeBody_syntax. }
  unfold testNativeBody. rewrite bind_apply. simpl.
  rewrite bind_apply.
  destruct (Z.leb_spec maxParseErrors (parseErrors (world t))); [lia|]. simpl.
  rewrite bind_apply. simpl. fold code.
  subst err. destruct (Parse dr code) as [resp e]. simpl.
  rewrite Hsyn. rewrite bind_apply.
  destruct e as [e|]; simpl; [reflexivity|].
  - rewrite bind_apply. simpl.
    destruct (marshalNative E resp) as [js e'].
    match goal with
    | |- parseErrors (world (?m t).1) = _ =>
        cut (keepsCounter m); [intros Hk; exact (Hk t)|]
    end.
    apply keepsCounter_bind;
      [apply keepsWorld_keepsCounter, keepsWorld_require_NoError|].
    intros _. apply keepsCounter_reconcile.
Qed.

(** What the annotated and semantic body does to the counter. *)
Lemma testUASTBody_counter :
  parseErrors (world t) < maxParseErrors →
  parseErrors (world (testUASTBody E s dr mode suf blacklist fname t).1)
  = if notNil err then uint32_wrap (parseErrors (world t) + 1)
    else parseErrors (world t).
Proof.
  intros Hc. destruct (Contains fname syntaxErrTestName) eqn:Hsyn.
  { rewrite testUASTBody_syntax by done. subst bumped. by destruct (notNil err). }
  unfold testUASTBody. rewrite bind_apply. simpl.
  rewrite bind_apply.
  destruct (Z.leb_spec maxParseErrors (parseErrors (world t))); [lia|]. simpl.
  rewrite bind_apply. simpl. fold code.
  subst err. destruct (Parse dr code) as [ast e]. simpl.
  rewrite Hsyn. rewrite bind_apply.
  destruct e as [e|]; simpl; [reflexivity|].
  - rewrite bind_apply. simpl. rewrite bind_apply. simpl.
    match goal with
    | |- parseErrors (world (?m t).1) = _ =>
        cut (keepsCounter m); [intros Hk; exact (Hk t)|]
    end.
    apply keepsCounter_bind.
    { apply keepsCounter_when. destruct (Do _ ModePreprocessed code ast) as [ua e1].
      apply keepsCounter_bind;
        [apply keepsWorld_keepsCounter, keepsWorld_require_NoError | intros _].
      destruct (marshalUAST E ua) as [un e2].
      apply keepsCounter_bind;
        [apply keepsWorld_keepsCounter, keepsWorld_require_NoError | intros _].
      apply keepsCounter_write. }
    intros _. destruct (Do _ mode code ast) as [ua e1].
    apply keepsCounter_bind;
      [apply keepsWorld_keepsCounter, keepsWorld_require_NoError | intros _].
    apply keepsCounter_bind;
      [apply keepsWorld_keepsCounter, keepsWorld_blacklistScan | intros _].
    apply keepsCounter_bind;
      [apply keepsWorld_keepsCounter, keepsWorld_when, keepsWorld_conformanceScan
      | intros _].
    apply keepsCounter_bind;
      [apply keepsWorld_keepsCounter, keepsWorld_when, keepsWorld_verifyTokens
      | intros _].
    destruct (marshalUAST E ua) as [un e2].
    apply keepsCounter_bind;
      [apply keepsWorld_keepsCounter, keepsWorld_require_NoError | intros _].
    apply keepsCounter_bind; [apply keepsCounter_reconcile | intros _].
    apply keepsCounter_when, keepsCounter_writeViewerJSON.
Qed.

(** A native subtest started below the ceiling is not stopped by [SkipNow]. *)
Lemma testNativeBody_runs :
  parseErrors (world t) < maxParseErrors →
  (testNativeBody E s dr fname t).2 ≠ inr SkipNow.
Proof.
  intros Hc. destruct (Contains fname syntaxErrTestName) eqn:Hsyn.
  { rewrite testNativeBody_syntax by done. subst syntaxVerdict. simpl.
    by destruct (notNil err && negb (Is ErrDriverFailure err)). }
  unfold testNativeBody. rewrite bind_apply. simpl.
  rewrite bind_apply.
  destruct (Z.leb_spec maxParseErrors (parseErrors (world t))); [lia|]. simpl.
  rewrite bind_apply. simpl. fold code.
  destruct (Parse dr code) as [resp e]. simpl.
  rewrite Hsyn. rewrite bind_apply.
  destruct e as [e|]; simpl; [done|].
  rewrite bind_apply. simpl.
  destruct (marshalNative E resp) as [js e'].
  match goal with
  | |- (?m t).2 ≠ _ =>
      cut (finishes (λ fin, fin ≠ SkipNow) m);
      [intros Hk Hfin; by apply (Hk t SkipNow)|]
  end.
  apply finishes_bind; [by apply finishes_require_NoError | intros _].
  apply finishes_reconcile.
Qed.

(** Neither is an annotated or semantic subtest. *)
Lemma testUASTBody_runs :
  parseErrors (world t) < maxParseErrors →
  (testUASTBody E s dr mode suf blacklist fname t).2 ≠ inr SkipNow.
Proof.
  intros Hc. destruct (Contains fname syntaxErrTestName) eqn:Hsyn.
  { rewrite testUASTBody_syntax by done. subst syntaxVerdict. simpl.
    by destruct (notNil err && negb (Is ErrDriverFailure err)). }
  unfold testUASTBody. rewrite bind_apply. simpl.
  rewrite bind_apply.
  destruct (Z.leb_spec maxParseErrors (parseErrors (world t))); [lia|]. simpl.
  rewrite bind_apply. simpl. fold code.
  destruct (Parse dr code) as [ast e]. simpl.
  rewrite Hsyn. rewrite bind_apply.
  destruct e as [e|]; simpl; [done|].
  rewrite bind_apply. simpl. rewrite bind_apply. simpl.
  match goal with
  | |- (?m t).2 ≠ _ =>
      cut (finishes (λ fin, fin ≠ SkipNow) m);
      [intros Hk Hfin; by apply (Hk t SkipNow)|]
  end.
  apply finishes_bind.
  { apply finishes_when. destruct (Do _ ModePreprocessed code ast) as [ua e1].
    apply finishes_bind; [by apply finishes_require_NoError | intros _].
    destruct (marshalUAST E ua) as [un e2].
    apply finishes_bind; [by apply finishes_require_NoError | intros _].
    apply goesOn_finishes, goesOn_setFiles. }
  intros _. destruct (Do _ mode code ast) as [ua e1].
  apply finishes_bind; [by apply finishes_require_NoError | intros _].
  apply finishes_bind; [apply goesOn_finishes, goesOn_blacklistScan | intros _].
  apply finishes_bind;
    [apply goesOn_finishes, goesOn_when, goesOn_conformanceScan | intros _].
  apply finishes_bind;
    [apply goesOn_finishes, goesOn_when, goesOn_verifyTokens | intros _].
  destruct (marshalUAST E ua) as [un e2].
  apply finishes_bind; [by apply finishes_require_NoError | intros _].
  apply finishes_bind; [apply finishes_reconcile | intros _].
  apply finishes_when. unfold writeViewerJSON.
  destruct (viewer_MarshalUAST E (Lang s) code ua) as [data e3].
  apply finishes_bind; [by apply finishes_require_NoError | intros _].
  apply goesOn_finishes, goesOn_setFiles.
Qed.

(** On a fixture that is not a syntax-error fixture and whose source parses
    and marshals, the native subtest is the reconciliation of the marshalled
    text. *)
Lemma testNativeBody_reconciles resp js :
  parseErrors (world t) < maxParseErrors →
  Contains fname syntaxErrTestName = false →
  Parse dr code = (resp, None) →
  marshalNative E resp = (js, None) →
  testNativeBody E s dr fname t
  = reconcile E s (UpdateNative s) nativeExt
      "unexpected AST returned by the driver"
      "force update of native fixtures" fname js t.
Proof.
  intros Hc Hsyn Hparse Hjs. unfold testNativeBody. rewrite bind_apply. simpl.
  rewrite bind_apply.
  destruct (Z.leb_spec maxParseErrors (parseErrors (world t))); [lia|]. simpl.
  rewrite bind_apply. simpl. fold code. rewrite Hparse, Hsyn. simpl.
  rewrite bind_apply. simpl. rewrite bind_apply. simpl. rewrite Hjs.
  rewrite bind_apply. reflexivity.
Qed.

(** Likewise the annotated or semantic subtest, after its scans have logged
    what they found, is the reconciliation of the marshalled tree, followed
    by the optional viewer dump. *)
Lemma testUASTBody_reconciles ast ua un :
  parseErrors (world t) < maxParseErrors →
  Contains fname syntaxErrTestName = false →
  Parse dr code = (ast, None) →
  WritePreprocessed s = false →
  Do (Transforms_ s) mode code ast = (ua, None) →
  marshalUAST E ua = (un, None) →
  ∃ t1, world t1 = world t
        ∧ testUASTBody E s dr mode suf blacklist fname t
          = (reconcile E s (UpdateUAST s) suf
               "unexpected UAST returned by the driver"
               "force update of fixtures" fname un;;
             when (WriteViewerJSON s) (writeViewerJSON E s (fname +:+ suf) code ua)) t1.
Proof.
  intros Hc Hsyn Hparse Hpre Hdo Hun. unfold testUASTBody. rewrite bind_apply. simpl.
  rewrite bind_apply.
  destruct (Z.leb_spec maxParseErrors (parseErrors (world t))); [lia|]. simpl.
  rewrite bind_apply. simpl. fold code. rewrite Hparse, Hsyn, Hpre. simpl.
  rewrite bind_apply. simpl. rewrite bind_apply. simpl. rewrite bind_apply. simpl.
  rewrite bind_apply. simpl. rewrite Hdo. rewrite bind_apply. simpl.
  rewrite bind_apply.
  pose proof (keepsWorld_blacklistScan E (Transforms_ s) blacklist ua t) as Hw1.
  destruct (goesOn_blacklistScan E (Transforms_ s) blacklist ua t) as [[] Hg1].
  destruct (blacklistScan E (Transforms_ s) blacklist ua t) as [t1 r1].
  simpl in Hw1, Hg1. subst r1.
  rewrite bind_apply.
  match goal with
  | |- context [when ?b (conformanceScan E ua) t1] =>
      pose proof (keepsWorld_when b _ (keepsWorld_conformanceScan E ua) t1) as Hw2;
      destruct (goesOn_when b _ (goesOn_conformanceScan E ua) t1) as [[] Hg2];
      destruct (when b (conformanceScan E ua) t1) as [t2 r2]
  end.
  simpl in Hw2, Hg2. subst r2.
  rewrite bind_apply.
  match goal with
  | |- context [when ?b (verifyTokens ?vs code ua) t2] =>
      pose proof (keepsWorld_when b _ (keepsWorld_verifyTokens vs code ua) t2) as Hw3;
      destruct (goesOn_when b _ (goesOn_verifyTokens vs code ua) t2) as [[] Hg3];
      destruct (when b (verifyTokens vs code ua) t2) as [t3 r3]
  end.
  simpl in Hw3, Hg3. subst r3.
  rewrite Hun. rewrite bind_apply. simpl.
  exists t3. split; [congruence | reflexivity].
Qed.

End Bodies.

(** ** The fixture loop and its error budget *)

Section Loop.

Variables (body : string → M unit) (suffix : string).

(** With the budget used up the loop returns at once. *)
Lemma fixturesLoop_exhausted ents w :
  maxParseErrors ≤ parseErrors w →
  (fixturesLoop body suffix ents w).2 = []
  ∧ (fixturesLoop body suffix ents w).1 = w.
Proof.
  intros Hc. induction ents as [|fname rest IH]; simpl; [done|].
  destruct (isTest fname suffix) as [name ok]. destruct ok; simpl; [|exact IH].
  destruct (Z.leb_spec maxParseErrors (parseErrors w)); [done | lia].
Qed.

(** Once the counter is at the ceiling, a longer listing changes nothing. *)
Lemma fixturesLoop_stops ents rest w :
  maxParseErrors ≤ parseErrors (fixturesLoop body suffix ents w).1 →
  fixturesLoop body suffix (ents ++ rest) w = fixturesLoop body suffix ents w.
Proof.
  revert w. induction ents as [|fname ents IH]; intros w Hc; simpl in *.
  - destruct (fixturesLoop_exhausted rest w Hc) as [H1 H2].
    destruct (fixturesLoop body suffix rest w). simpl in *. by subst.
  - destruct (isTest fname suffix) as [name ok]. destruct ok; simpl in *; [|by apply IH].
    destruct (maxParseErrors <=? parseErrors w); [done|].
    destruct (t_Run (body fname) w) as [w1 r] eqn:Hrun.
    rewrite IH; [done|].
    destruct (fixturesLoop body suffix ents w1). exact Hc.
Qed.

(** When each subtest counts at most one failure, the counter never passes
    the ceiling, grows by at most one per reported subtest, and a fixture is
    left out only with the counter at the ceiling. *)
Lemma fixturesLoop_budget :
  (∀ fname w, 0 ≤ parseErrors w < maxParseErrors →
     parseErrors w ≤ parseErrors (t_Run (body fname) w).1 ≤ parseErrors w + 1) →
  ∀ ents w, 0 ≤ parseErrors w ≤ maxParseErrors →
    let res := fixturesLoop body suffix ents w in
    parseErrors w ≤ parseErrors res.1 ≤ maxParseErrors
    ∧ parseErrors res.1 ≤ parseErrors w + Z.of_nat (length res.2)
    ∧ (length res.2 = discovered suffix ents ∨ maxParseErrors ≤ parseErrors res.1).
Proof.
  intros Hstep ents. unfold discovered.
  induction ents as [|fname ents IH]; intros w Hw; simpl.
  - repeat split; lia.
  - rewrite filter_cons.
    destruct (isTest fname suffix) as [name ok]. destruct ok; simpl.
    + destruct (Z.leb_spec maxParseErrors (parseErrors w)); simpl.
      { repeat split; lia. }
      pose proof (Hstep fname w ltac:(lia)) as Hs.
      destruct (t_Run (body fname) w) as [w1 r]. simpl in Hs.
      specialize (IH w1 ltac:(unfold maxParseErrors in *; lia)). simpl in IH.
      destruct (fixturesLoop body suffix ents w1) as [w2 rs]. simpl in *.
      destruct IH as (IH1 & IH2 & IH3).
      repeat split; lia.
    + by apply IH.
Qed.

(** When no subtest started below the ceiling is stopped by [SkipNow], no
    reported subtest is. *)
Lemma fixturesLoop_runs :
  (∀ fname w, parseErrors w < maxParseErrors →
     finish (t_Run (body fname) w).2 ≠ SkipNow) →
  ∀ ents w, Forall (λ nr, finish nr.2 ≠ SkipNow) (fixturesLoop body suffix ents w).2.
Proof.
  intros Hrun ents. induction ents as [|fname ents IH]; intros w; simpl; [done|].
  destruct (isTest fname suffix) as [name ok]. destruct ok; simpl; [|by apply IH].
  destruct (Z.leb_spec maxParseErrors (parseErrors w)); simpl; [done|].
  pose proof (Hrun fname w ltac:(lia)) as Hr.
  destruct (t_Run (body fname) w) as [w1 r]. simpl in Hr.
  specialize (IH w1). destruct (fixturesLoop body suffix ents w1) as [w2 rs].
  simpl in *. by constructor.
Qed.

End Loop.

(** ** Subtests as the loop runs them *)

Lemma t_Run_world (body : M unit) (w : World) :
  (t_Run body w).1 = world (body {| world := w; logged := [] |}).1.
Proof. unfold t_Run. by destruct (body _). Qed.

Lemma t_Run_finish (body : M unit) (w : World) :
  finish (t_Run body w).2
  = match (body {| world := w; logged := [] |}).2 with
    | inl _ => Returned
    | inr fin => fin
    end.
Proof. unfold t_Run. by destruct (body _). Qed.

Lemma t_Run_errors (body : M unit) (w : World) :
  errors (t_Run body w).2 = logged (body {| world := w; logged := [] |}).1.
Proof. unfold t_Run. by destruct (body _). Qed.

Lemma uint32_wrap_small (z : Z) : 0 ≤ z < 4 → uint32_wrap z = z.
Proof. intros Hz. unfold uint32_wrap. apply Z.mod_small. lia. Qed.

Section Subtests.

Variable E : Env.
Variables (s : Suite) (dr : Native).
Variables (mode : Mode) (suf : string) (blacklist : list string).

Lemma native_subtest_counts_once fname w :
  0 ≤ parseErrors w < maxParseErrors →
  parseErrors w ≤ parseErrors (t_Run (testNativeBody E s dr fname) w).1
  ≤ parseErrors w + 1.
Proof.
  intros Hw. rewrite t_Run_world, testNativeBody_counter by (simpl; lia). simpl.
  destruct (_ && _); [|lia].
  rewrite uint32_wrap_small by (unfold maxParseErrors in *; lia). lia.
Qed.

Lemma uast_subtest_counts_once fname w :
  0 ≤ parseErrors w < maxParseErrors →
  parseErrors w
  ≤ parseErrors (t_Run (testUASTBody E s dr mode suf blacklist fname) w).1
  ≤ parseErrors w + 1.
Proof.
  intros Hw. rewrite t_Run_world, testUASTBody_counter by (simpl; lia). simpl.
  destruct (notNil _); [|lia].
  rewrite uint32_wrap_small by (unfold maxParseErrors in *; lia). lia.
Qed.

Lemma native_subtest_runs fname w :
  parseErrors w < maxParseErrors →
  finish (t_Run (testNativeBody E s dr fname) w).2 ≠ SkipNow.
Proof.
  intros Hw. rewrite t_Run_finish.
  pose proof (testNativeBody_runs E s dr fname {| world := w; logged := [] |} Hw) as H.
  destruct (testNativeBody _ _ _ _ _).2 as [[]|fin]; [done | congruence].
Qed.

Lemma uast_subtest_runs fname w :
  parseErrors w < maxParseErrors →
  finish (t_Run (testUASTBody E s dr mode suf blacklist fname) w).2 ≠ SkipNow.
Proof.
  intros Hw. rewrite t_Run_finish.
  pose proof (testUASTBody_runs E s dr fname mode suf blacklist
                {| world := w; logged := [] |} Hw) as H.
  destruct (testUASTBody _ _ _ _ _ _ _ _).2 as [[]|fin]; [done | congruence].
Qed.

End Subtests.

(** C1 (as amended): in the loop of a stage, once the failure counter is at
    the ceiling after part of the listing, the rest of the listing starts no
    subtest and adds no report, not even a skipped one: the reports and the
    directory are those of the part already processed. Every subtest that was
    started ran its body: none of the reports is a [SkipNow]. *)
Theorem error_budget_ends_the_loop (E : Env) (s : Suite) (dr : Native)
    (mode : Mode) (suf : string) (blacklist : list string)
    (body : string → M unit) (ents rest : list string) (w : World) :
  body = testNativeBody E s dr
  ∨ body = testUASTBody E s dr mode suf blacklist →
  maxParseErrors ≤ parseErrors (fixturesLoop body (Ext s) ents w).1 →
  fixturesLoop body (Ext s) (ents ++ rest) w = fixturesLoop body (Ext s) ents w
  ∧ Forall (λ nr, finish nr.2 ≠ SkipNow) (fixturesLoop body (Ext s) ents w).2.
Proof.
  intros Hbody Hc. split; [by apply fixturesLoop_stops|].
  apply fixturesLoop_runs. intros fname w' Hw'.
  destruct Hbody as [-> | ->];
    [by apply native_subtest_runs | by apply uast_subtest_runs].
Qed.

Lemma error_budget_ends_the_loop_witness :
  let body := testNativeBody Sample.E0 Sample.s0 Sample.dr in
  let w := {| files := {["a.x" := "bad"; "b.x" := "bad"; "c.x" := "bad"; "d.x" := "ok"]};
              parseErrors := 0 |} in
  fixturesLoop body ".x" (["a.x"; "b.x"; "c.x"] ++ ["d.x"]) w
  = fixturesLoop body ".x" ["a.x"; "b.x"; "c.x"] w.
Proof.
  intros body w.
  apply (error_budget_ends_the_loop Sample.E0 Sample.s0 Sample.dr ModeNative "" []
           body ["a.x"; "b.x"; "c.x"] ["d.x"] w).
  - left. reflexivity.
  - vm_compute. discriminate.
Defined.

(** C1, as stated, fails: with three fixtures that do not parse followed by
    one more, the native stage reports the three and returns; the fourth gets
    no subtest, so it is not marked as skipped either. *)
Lemma error_budget_leaves_fixtures_unreported :
  let fs : gmap string string :=
    {["a.x" := "bad"; "b.x" := "bad"; "c.x" := "bad"; "d.x" := "ok"]} in
  let res := testFixturesNative Sample.E0 Sample.s0 fs in
  ReadDir fs = ["a.x"; "b.x"; "c.x"; "d.x"]
  ∧ map fst (subtests res.2) = ["a"; "b"; "c"]
  ∧ ¬ ∃ r, In ("d", r) (subtests res.2) ∧ skipped r = true.
Proof.
  vm_compute. split; [reflexivity|]. split; [reflexivity|].
  intros [r [Hin _]].
  destruct Hin as [H|[H|[H|[]]]]; discriminate H.
Qed.

(** X16: below the ceiling, a native subtest adds one to the failure counter
    exactly when the parse returns an error and the fixture is not a
    syntax-error fixture, and leaves the counter as it is otherwise. *)
Lemma native_counts_unexpected_errors (E : Env) (s : Suite) (dr : Native)
    (fname : string) (w : World) :
  0 ≤ parseErrors w < maxParseErrors →
  parseErrors (t_Run (testNativeBody E s dr fname) w).1
  = if negb (Contains fname syntaxErrTestName)
       && notNil (Parse dr (default "" (files w !! fname))).2
    then parseErrors w + 1
    else parseErrors w.
Proof.
  intros Hw. rewrite t_Run_world, testNativeBody_counter by (simpl; lia). simpl.
  destruct (_ && _); [|done].
  apply uint32_wrap_small. unfold maxParseErrors in *. lia.
Qed.

(** The annotated and semantic stages count every parse error, the expected
    one of a syntax-error fixture too. *)
Lemma uast_counts_every_error (E : Env) (s : Suite) (dr : Native)
    (mode : Mode) (suf : string) (blacklist : list string)
    (fname : string) (w : World) :
  0 ≤ parseErrors w < maxParseErrors →
  parseErrors (t_Run (testUASTBody E s dr mode suf blacklist fname) w).1
  = if notNil (Parse dr (default "" (files w !! fname))).2
    then parseErrors w + 1
    else parseErrors w.
Proof.
  intros Hw. rewrite t_Run_world, testUASTBody_counter by (simpl; lia). simpl.
  destruct (notNil _); [|done].
  apply uint32_wrap_small. unfold maxParseErrors in *. lia.
Qed.

(** C2 (the code departs from it): on a syntax-error fixture whose source is
    rejected as the fixture expects, the annotated stage passes the subtest
    and still counts the error, where the native stage leaves the counter
    alone. Three such fixtures use up the budget of the annotated stage: a
    fixture listed after them is never run there, while the native stage runs
    it. *)
Theorem uast_counts_expected_syntax_error :
  let fs : gmap string string :=
    {["a_syntax_error.x" := "bad"; "b_syntax_error.x" := "bad";
      "c_syntax_error.x" := "bad"; "z.x" := "ok"]} in
  let w := {| files := fs; parseErrors := 0 |} in
  let native := t_Run (testNativeBody Sample.E0 Sample.s0 Sample.dr "a_syntax_error.x") w in
  let uast := t_Run (testUASTBody Sample.E0 Sample.s0 Sample.dr ModeAnnotated uastExt []
                       "a_syntax_error.x") w in
  Sample.parse "bad" = (NNil, Some Sample.syntaxError)
  ∧ passed native.2 = true ∧ parseErrors native.1 = 0
  ∧ passed uast.2 = true ∧ parseErrors uast.1 = 1
  ∧ map fst (subtests (testFixturesNative Sample.E0 Sample.s0 fs).2)
    = ["a_syntax_error"; "b_syntax_error"; "c_syntax_error"; "z"]
  ∧ map fst (subtests (testFixturesUAST Sample.E0 Sample.s0 ModeAnnotated uastExt [] fs).2)
    = ["a_syntax_error"; "b_syntax_error"; "c_syntax_error"].
Proof.
  vm_compute. repeat split.
Qed.

(** C7: on a fixture whose name holds the syntax-error marker, a subtest of
    any stage passes exactly when the parse returns an error that is not a
    driver failure; it fails on a successful parse and on a driver failure;
    and it leaves the directory as it was: no golden is compared or written.
    (The loop starts a subtest only below the ceiling.) *)
Theorem syntax_error_fixture_verdict (E : Env) (s : Suite) (dr : Native)
    (mode : Mode) (suf : string) (blacklist : list string)
    (fname : string) (w : World) :
  Contains fname syntaxErrTestName = true →
  parseErrors w < maxParseErrors →
  let err := (Parse dr (default "" (files w !! fname))).2 in
  ∀ res,
    res = t_Run (testNativeBody E s dr fname) w
    ∨ res = t_Run (testUASTBody E s dr mode suf blacklist fname) w →
    (passed res.2 = true ↔ notNil err = true ∧ Is ErrDriverFailure err = false)
    ∧ (err = None → failed res.2 = true)
    ∧ (Is ErrDriverFailure err = true → failed res.2 = true)
    ∧ (passed res.2 = false → failed res.2 = true)
    ∧ files res.1 = files w.
Proof.
  intros Hsyn Hw err res Hres.
  assert (Hrep : res.2 = {| errors := [];
                            finish := if notNil err && negb (Is ErrDriverFailure err)
                                      then Returned
                                      else RequireTrue "unexpected error: %v" [AErr err] |}
                 ∧ files res.1 = files w).
  { destruct Hres as [-> | ->]; unfold t_Run.
    - rewrite testNativeBody_syntax by done. simpl. split; [|done].
      fold err. by destruct (notNil err && negb (Is ErrDriverFailure err)).
    - rewrite testUASTBody_syntax by done. simpl. fold err.
      destruct (notNil err); simpl; (split; [|done]);
        by destruct (negb (Is ErrDriverFailure err)). }
  destruct Hrep as [-> Hfiles]. unfold passed, failed. simpl.
  destruct err as [e|]; simpl.
  - destruct (bool_decide (kind e = ErrDriverFailure)); simpl;
      repeat split; try done; intros []; done.
  - repeat split; try done; intros []; done.
Qed.

Lemma syntax_error_fixture_verdict_witness :
  passed (t_Run (testNativeBody Sample.E0 Sample.s0 Sample.dr "a_syntax_error.x")
            {| files := {["a_syntax_error.x" := "bad"]}; parseErrors := 0 |}).2 = true.
Proof.
  pose proof (syntax_error_fixture_verdict Sample.E0 Sample.s0 Sample.dr ModeNative "" []
                "a_syntax_error.x"
                {| files := {["a_syntax_error.x" := "bad"]}; parseErrors := 0 |}) as H.
  simpl in H. specialize (H eq_refl eq_refl _ (or_introl eq_refl)).
  destruct H as (H & _). apply H. split; reflexivity.
Defined.

(** ** One budget per stage *)

(** A stage whose driver starts is its loop run from a counter at zero; the
    counter is dropped with the loop's result. *)
Lemma runStage_started (s : Suite) (body : Native → string → M unit)
    (fs : gmap string string) :
  Start (NewDriver s tt) = None →
  runStage s body fs
  = let res := fixturesLoop (body (NewDriver s tt)) (Ext s) (ReadDir fs)
                 {| files := fs; parseErrors := 0 |} in
    (files res.1, {| stageFinish := Returned; subtests := res.2 |}).
Proof.
  intros Hstart. unfold runStage. rewrite Hstart.
  by destruct (fixturesLoop _ _ _ _).
Qed.

Lemma runStage_ownBudget (s : Suite) (body : Native → string → M unit)
    (fs : gmap string string) :
  (∀ dr fname w, 0 ≤ parseErrors w < maxParseErrors →
     parseErrors w ≤ parseErrors (t_Run (body dr fname) w).1 ≤ parseErrors w + 1) →
  ownBudget s fs (runStage s body fs).2.
Proof.
  intros Hstep Hfin Hlt. unfold runStage in *.
  destruct (Start (NewDriver s tt)); [done|].
  pose proof (fixturesLoop_budget (body (NewDriver s tt)) (Ext s)
                (Hstep (NewDriver s tt)) (ReadDir fs)
                {| files := fs; parseErrors := 0 |}) as H.
  simpl in H. specialize (H ltac:(unfold maxParseErrors; lia)).
  destruct (fixturesLoop _ _ _ _) as [w rs]. simpl in *.
  unfold maxParseErrors in *. lia.
Qed.

(** C10: outside the Docker path, a test invocation is the native, the
    annotated and the semantic stage run one after the other, each on the
    directory the one before left and each with a counter of its own that
    starts at zero; nothing but the directory passes from stage to stage. So
    a stage leaves a fixture out only after running three subtests of its
    own, whatever the stages before it counted. *)
Theorem stages_have_their_own_budget (E : Env)
    (runTestsDocker :
       Suite → gmap string string → gmap string string * list (string * StageReport))
    (s : Suite) (fs : gmap string string) :
  negb (eqb (Image (Docker s)) "") && runInDocker E = false →
  let native := testFixturesNative E s fs in
  let annotated := testFixturesUAST E s ModeAnnotated uastExt [] native.1 in
  let semantic :=
    testFixturesUAST E s ModeSemantic highExt (BlacklistTypes (Semantic s)) annotated.1 in
  RunTests E runTestsDocker s fs
  = (semantic.1, [("native", native.2); ("uast", annotated.2); ("semantic", semantic.2)])
  ∧ (Start (NewDriver s tt) = None →
     native.2 = {| stageFinish := Returned;
                     subtests := (fixturesLoop (testNativeBody E s (NewDriver s tt)) (Ext s)
                                    (ReadDir fs) {| files := fs; parseErrors := 0 |}).2 |}
     ∧ annotated.2
       = {| stageFinish := Returned;
            subtests := (fixturesLoop
                           (testUASTBody E s (NewDriver s tt) ModeAnnotated uastExt [])
                           (Ext s) (ReadDir native.1)
                           {| files := native.1; parseErrors := 0 |}).2 |}
     ∧ semantic.2
       = {| stageFinish := Returned;
            subtests := (fixturesLoop
                           (testUASTBody E s (NewDriver s tt) ModeSemantic highExt
                              (BlacklistTypes (Semantic s)))
                           (Ext s) (ReadDir annotated.1)
                           {| files := annotated.1; parseErrors := 0 |}).2 |})
  ∧ ownBudget s fs native.2
  ∧ ownBudget s native.1 annotated.2
  ∧ ownBudget s annotated.1 semantic.2.
Proof.
  intros Hdocker native annotated semantic. split; [|split].
  - unfold RunTests. rewrite Hdocker. subst native annotated semantic.
    destruct (testFixturesNative E s fs) as [fs1 r1]. simpl.
    destruct (testFixturesUAST E s ModeAnnotated uastExt [] fs1) as [fs2 r2]. simpl.
    by destruct (testFixturesUAST E s ModeSemantic highExt _ fs2) as [fs3 r3].
  - intros Hstart. subst native annotated semantic.
    unfold testFixturesNative, testFixturesUAST.
    rewrite !runStage_started by done. done.
  - subst native annotated semantic. unfold testFixturesNative, testFixturesUAST.
    split; [|split]; apply runStage_ownBudget; intros dr fname w Hw.
    + by apply native_subtest_counts_once.
    + by apply uast_subtest_counts_once.
    + by apply uast_subtest_counts_once.
Qed.

Lemma stages_have_their_own_budget_witness :
  let fs : gmap string string :=
    {["a.x" := "bad"; "b.x" := "bad"; "c.x" := "bad"; "d.x" := "ok"]} in
  map (λ stage, (stage.1, map fst (subtests stage.2)))
    (RunTests Sample.E0 Sample.noDocker Sample.s0 fs).2
  = [("native", ["a"; "b"; "c"]); ("uast", ["a"; "b"; "c"]); ("semantic", ["a"; "b"; "c"])].
Proof.
  intros fs.
  destruct (stages_have_their_own_budget Sample.E0 Sample.noDocker Sample.s0 fs)
    as (H & _); [reflexivity|].
  rewrite H. vm_compute. reflexivity.
Defined.

(** ** The forbidden-type scan *)

Lemma int_wrap_small (z : Z) : 0 ≤ z < 2 ^ 63 → int_wrap z = z.
Proof.
  intros Hz. unfold int_wrap. rewrite Z.mod_small; lia.
Qed.

Section BlacklistScan.

Variable E : Env.
Variable tr : Transforms.

Let ns := Namespace tr.

(** The counters as the scan sets them up: every listed tag at zero. *)
Lemma foundBlack_init (blacklist : list string) (m : gmap string Z) (k : string) :
  fold_left (λ m typ, <[typ:=0]> m) blacklist m !! k
  = if decide (k ∈ blacklist) then Some 0 else m !! k.
Proof.
  revert m. induction blacklist as [|typ blacklist IH]; intros m; simpl.
  - done.
  - rewrite IH. destruct (decide (k ∈ blacklist)) as [Hin|Hin].
    + rewrite decide_True; [done | by right].
    + destruct (decide (k = typ)) as [->|Hne].
      * rewrite decide_True by left. apply lookup_insert_eq.
      * rewrite decide_False.
        -- by rewrite lookup_insert_ne.
        -- intros [?|?]%elem_of_cons; done.
Qed.

Lemma countBlack_continues (n : Node) (m : gmap string Z) :
  (countBlack tr n m).1 = true.
Proof.
  unfold countBlack. destruct (eqb (TypeOf n) ""); [done|].
  by destruct (m !! _).
Qed.

(** One node moves one counter by one, the one of the tag it counts under. *)
Lemma countBlack_lookup (n : Node) (m : gmap string Z) (k : string) :
  (countBlack tr n m).2 !! k
  = if decide (TypeOf n ≠ "" ∧ strippedType ns n = k)
    then (λ c, int_wrap (c + 1)) <$> m !! k
    else m !! k.
Proof.
  unfold countBlack, strippedType. subst ns.
  destruct (eqb (TypeOf n) "") eqn:Hty.
  { apply eqb_true in Hty. rewrite decide_False; [done | by intros [? _]]. }
  apply eqb_false in Hty.
  set (typ := if negb (eqb (Namespace tr) "")
                 && HasPrefix (TypeOf n) (Namespace tr +:+ ":")
              then TrimPrefix (TypeOf n) (Namespace tr +:+ ":")
              else TypeOf n).
  destruct (decide (typ = k)) as [<-|Hne].
  - rewrite decide_True by done.
    destruct (m !! typ) as [cnt|] eqn:Hm; simpl; [|by rewrite Hm].
    by rewrite lookup_insert_eq.
  - rewrite decide_False by (by intros [_ ?]).
    destruct (m !! typ) as [cnt|] eqn:Hm; simpl; [|done].
    by rewrite lookup_insert_ne.
Qed.

Lemma occurrences_cons (k : string) (n : Node) (l : list Node) :
  occurrences ns k (n :: l)
  = ((if decide (TypeOf n ≠ "" ∧ strippedType ns n = k) then 1 else 0)
     + occurrences ns k l)%nat.
Proof.
  unfold occurrences. rewrite filter_cons. by destruct (decide _).
Qed.

(** Over a list of nodes the counter of a tag grows by the number of nodes
    that count under it, as long as the count fits an [int]. *)
Lemma foundBlack_counts (l : list Node) (m : gmap string Z) (k : string) :
  (∀ c, m !! k = Some c → 0 ≤ c ∧ c + Z.of_nat (length l) < 2 ^ 63) →
  fold_left (λ acc n, (countBlack tr n acc).2) l m !! k
  = (λ c, c + Z.of_nat (occurrences ns k l)) <$> m !! k.
Proof.
  revert m. induction l as [|n l IH]; intros m Hm; simpl.
  - destruct (m !! k) as [c|]; simpl; [|done]. f_equal. unfold occurrences. simpl. lia.
  - rewrite IH.
    + rewrite countBlack_lookup, occurrences_cons.
      destruct (decide _) as [Hn|Hn].
      * destruct (m !! k) as [c|] eqn:Hk; simpl; [|done].
        destruct (Hm c eq_refl) as [Hc0 Hc1]. simpl in Hc1.
        rewrite int_wrap_small by lia. f_equal. lia.
      * destruct (m !! k) as [c|]; simpl; [|done]. f_equal.
    + intros c. rewrite countBlack_lookup.
      destruct (decide _) as [Hn|Hn].
      * destruct (m !! k) as [c0|] eqn:Hk; simpl; [|done].
        intros [= <-]. destruct (Hm c0 eq_refl) as [Hc0 Hc1]. simpl in Hc1.
        rewrite int_wrap_small by lia. lia.
      * intros Hc. destruct (Hm c Hc) as [Hc0 Hc1]. simpl in Hc1. lia.
Qed.

(** The counters after the walk. *)
Lemma foundBlack_after_walk (blacklist : list string) (ua : Node) (k : string) :
  Z.of_nat (length (preorder ua)) < 2 ^ 63 →
  WalkPreOrder (countBlack tr) ua (fold_left (λ m typ, <[typ:=0]> m) blacklist ∅) !! k
  = if decide (k ∈ blacklist)
    then Some (Z.of_nat (occurrences ns k (preorder ua)))
    else None.
Proof.
  intros Hsize.
  rewrite WalkPreOrder_fold by apply countBlack_continues.
  rewrite foundBlack_counts.
  - rewrite foundBlack_init, lookup_empty. by destruct (decide _).
  - intros c. rewrite foundBlack_init, lookup_empty.
    destruct (decide _); [|done]. intros [= <-]. lia.
Qed.

(** What the reporting loop logs: one message per entry with a count other
    than zero, in the order of the entries. *)
Lemma reportBlack_logged (entries : list (string * Z)) (m : gmap string Z) (t : T) :
  logged (reportBlack entries m t).1
  = logged t ++ ((λ e, blacklisted e.1 e.2) <$> filter (λ e, e.2 ≠ 0) entries).
Proof.
  revert m t. induction entries as [|[typ cnt] rest IH]; intros m t; simpl.
  - by rewrite app_nil_r.
  - rewrite filter_cons. simpl.
    destruct (Z.eqb_spec cnt 0) as [->|Hne].
    + destruct (decide (0 ≠ 0)) as [H|_]; [done | apply IH].
    + destruct (decide (cnt ≠ 0)) as [_|H]; [|done].
      rewrite bind_apply. simpl.
      rewrite IH. simpl. by rewrite <- app_assoc.
Qed.

Lemma scanReport_eq (blacklist : list string) (ua : Node) (t : T) :
  blacklist ≠ [] →
  scanReport E tr blacklist ua t
  = (λ e, blacklisted e.1 e.2)
    <$> filter (λ e, e.2 ≠ 0)
          (rangeOrder E
             (map_to_list
                (WalkPreOrder (countBlack tr) ua
                   (fold_left (λ m typ, <[typ:=0]> m) blacklist ∅)))).
Proof.
  intros Hbl. unfold scanReport, blacklistScan.
  destruct blacklist as [|typ blacklist]; [done|].
  change (negb (length (typ :: blacklist) =? 0)%nat) with true.
  unfold when. rewrite bind_apply.
  match goal with
  | |- context [reportBlack ?es ?m t] =>
      pose proof (reportBlack_logged es m t) as Hlog;
      destruct (goesOn_reportBlack es m t) as [a Ha];
      destruct (reportBlack es m t) as [t' [a'|fin]]
  end; simpl in *; [|done].
  rewrite Hlog. by rewrite drop_app_length.
Qed.

Lemma scan_logged (blacklist : list string) (ua : Node) (t : T) :
  logged (blacklistScan E tr blacklist ua t).1
  = logged t ++ scanReport E tr blacklist ua t.
Proof.
  unfold scanReport, blacklistScan.
  destruct blacklist as [|typ blacklist].
  - simpl. by rewrite drop_all, app_nil_r.
  - change (negb (length (typ :: blacklist) =? 0)%nat) with true.
    unfold when. rewrite bind_apply.
    match goal with
    | |- context [reportBlack ?es ?m t] =>
        pose proof (reportBlack_logged es m t) as Hlog;
        destruct (goesOn_reportBlack es m t) as [a Ha];
        destruct (reportBlack es m t) as [t' [a'|fin]]
    end; simpl in *; [|done].
    rewrite Hlog. by rewrite drop_app_length.
Qed.

End BlacklistScan.

Lemma blacklisted_inj : Inj (=) (=) (λ e : string * Z, blacklisted e.1 e.2).
Proof. intros [typ1 cnt1] [typ2 cnt2] [= -> ->]. done. Qed.

(** C8: with a forbidden-type list that is not empty, the scan walks the tree
    once in pre-order and counts, for every listed tag, the nodes that carry
    a type tag and count under it (namespace prefix stripped). It then logs
    one failure per listed tag with a count above zero, giving the tag and the
    count, and nothing else; it logs nothing exactly when every listed tag
    has count zero. The scan itself never stops the subtest. (Counts are Go
    [int]s; the tree has fewer than [2^63] nodes.) *)
Theorem forbidden_type_scan (E : Env) (tr : Transforms) (blacklist : list string)
    (ua : Node) (t : T) :
  rangeOrder_ok E →
  blacklist ≠ [] →
  Z.of_nat (length (preorder ua)) < 2 ^ 63 →
  let count := λ typ, occurrences (Namespace tr) typ (preorder ua) in
  let report := scanReport E tr blacklist ua t in
  (blacklistScan E tr blacklist ua t).2 = inl tt
  ∧ logged (blacklistScan E tr blacklist ua t).1 = logged t ++ report
  ∧ NoDup report
  ∧ (∀ msg, msg ∈ report ↔
            ∃ typ, typ ∈ blacklist ∧ (0 < count typ)%nat
                   ∧ msg = blacklisted typ (Z.of_nat (count typ)))
  ∧ (report = [] ↔ ∀ typ, typ ∈ blacklist → count typ = 0%nat).
Proof.
  intros Hrange Hbl Hsize count report.
  assert (Hmem : ∀ msg, msg ∈ report ↔
            ∃ typ, typ ∈ blacklist ∧ (0 < count typ)%nat
                   ∧ msg = blacklisted typ (Z.of_nat (count typ))).
  { intros msg. subst report. rewrite scanReport_eq by done.
    rewrite list_elem_of_fmap. split.
    - intros ([typ cnt] & -> & [Hcnt Hin]%list_elem_of_filter). simpl in *.
      rewrite (Hrange _) in Hin. apply elem_of_map_to_list in Hin.
      rewrite foundBlack_after_walk in Hin by done.
      destruct (decide (typ ∈ blacklist)); [|done].
      injection Hin as <-. exists typ. fold (count typ) in *.
      repeat split; [done | lia].
    - intros (typ & Hin & Hpos & ->).
      exists (typ, Z.of_nat (count typ)). split; [done|].
      apply list_elem_of_filter. simpl. split; [lia|].
      rewrite (Hrange _). apply elem_of_map_to_list.
      rewrite foundBlack_after_walk by done. by rewrite decide_True. }
  repeat split.
  - destruct (goesOn_blacklistScan E tr blacklist ua t) as [[] Ha]. exact Ha.
  - apply scan_logged.
  - subst report. rewrite scanReport_eq by done.
    apply (@NoDup_fmap_2 _ _ _ blacklisted_inj). apply NoDup_filter.
    rewrite (Hrange _). apply NoDup_map_to_list.
  - apply Hmem.
  - apply Hmem.
  - intros Hnil typ Hin.
    destruct (count typ) as [|c] eqn:Hc; [done|].
    assert (blacklisted typ (Z.of_nat (count typ)) ∈ report) as Habs.
    { apply Hmem. exists typ. repeat split; [done | lia]. }
    rewrite Hnil in Habs. by apply elem_of_nil in Habs.
  - intros Hzero. destruct report as [|msg rest] eqn:Hrep; [done|].
    assert (msg ∈ msg :: rest) as Hin by left.
    apply Hmem in Hin as (typ & Hin & Hpos & _).
    specialize (Hzero typ Hin). lia.
Qed.

Lemma forbidden_type_scan_witness :
  blacklisted "If" 2
  ∈ scanReport Sample.E0 (Transforms_ Sample.s0) ["If"; "Loop"] Sample.tree (Sample.t0 ∅).
Proof.
  destruct (forbidden_type_scan Sample.E0 (Transforms_ Sample.s0) ["If"; "Loop"]
              Sample.tree (Sample.t0 ∅)) as (_ & _ & _ & Hmem & _).
  - intros l. reflexivity.
  - discriminate.
  - vm_compute. reflexivity.
  - apply Hmem. exists "If". split; [left|]. split; [vm_compute; lia | reflexivity].
Defined.

(** C9 (as amended): two runs of the forbidden-type scan on the same tree and
    the same forbidden-type list report the same violations, each tag once
    with the same count; the order of the reports is the order in which the
    runtime yields the entries of the counter map, which is not fixed and need
    not be lexicographic. *)
Theorem scan_reports_agree_up_to_order (E1 E2 : Env) (tr : Transforms)
    (blacklist : list string) (ua : Node) (t : T) :
  rangeOrder_ok E1 →
  rangeOrder_ok E2 →
  logged (blacklistScan E1 tr blacklist ua t).1
  = logged t ++ scanReport E1 tr blacklist ua t
  ∧ logged (blacklistScan E2 tr blacklist ua t).1
    = logged t ++ scanReport E2 tr blacklist ua t
  ∧ scanReport E1 tr blacklist ua t ≡ₚ scanReport E2 tr blacklist ua t.
Proof.
  intros H1 H2. split; [apply scan_logged|]. split; [apply scan_logged|].
  destruct blacklist as [|typ blacklist].
  - unfold scanReport, blacklistScan. simpl. by rewrite drop_all.
  - rewrite !scanReport_eq by done. by rewrite (H1 _), (H2 _).
Qed.

Lemma scan_reports_agree_up_to_order_witness :
  scanReport Sample.E0 (Transforms_ Sample.s0) ["If"; "Loop"] Sample.tree (Sample.t0 ∅)
  ≡ₚ scanReport Sample.Erev (Transforms_ Sample.s0) ["If"; "Loop"] Sample.tree
       (Sample.t0 ∅).
Proof.
  apply (scan_reports_agree_up_to_order Sample.E0 Sample.Erev).
  - intros l. reflexivity.
  - intros l. simpl. symmetry. apply Permutation_rev.
Defined.

(** C9, as stated, fails: the order of the reports follows the order in which
    the runtime ranges over the counter map. Two runs on the same tree and
    list, one under each of two such orders, give the reports in different
    orders, and one of the two is not lexicographic. *)
Lemma scan_report_order_not_fixed :
  let run := λ E, scanReport E (Transforms_ Sample.s0) ["If"; "Loop"] Sample.tree
                    (Sample.t0 ∅) in
  rangeOrder_ok Sample.E0
  ∧ rangeOrder_ok Sample.Erev
  ∧ run Sample.E0 ≠ run Sample.Erev
  ∧ ¬ (lexSorted (reportedTags (run Sample.E0))
       ∧ lexSorted (reportedTags (run Sample.Erev))).
Proof.
  split; [intros l; reflexivity|].
  split; [intros l; simpl; symmetry; apply Permutation_rev|].
  split.
  - vm_compute. discriminate.
  - intros [Ha Hb]. vm_compute in Ha, Hb.
    first [ inversion Ha as [|? ? _ Hhd]; inversion Hhd as [|? ? Hle]; exact Hle
          | inversion Hb as [|? ? _ Hhd]; inversion Hhd as [|? ? Hle]; exact Hle ].
Qed.

(** ** Fixture names *)

Lemma append_cons (x : ascii) (a b : string) :
  String x a +:+ b = String x (a +:+ b).
Proof. reflexivity. Qed.

Lemma append_nil_r (a : string) : a +:+ "" = a.
Proof.
  induction a as [|x a IH]; [reflexivity|]. rewrite append_cons. by f_equal.
Qed.

Lemma HasPrefix_spec (s p : string) :
  HasPrefix s p = true ↔ ∃ r, s = p +:+ r.
Proof.
  revert s. induction p as [|x p IH]; intros s.
  - split; [intros _; by exists s | intros _; by destruct s].
  - destruct s as [|c s]; simpl.
    + split; [done | intros [r Hr]; discriminate Hr].
    + destruct (Ascii.eqb_spec c x) as [->|Hne].
      * rewrite IH. split; intros [r Hr]; exists r.
        -- rewrite append_cons. by f_equal.
        -- rewrite append_cons in Hr. by injection Hr.
      * split; [done | intros [r Hr]]. rewrite append_cons in Hr.
        injection Hr as ? ?. done.
Qed.

Lemma dropn_append (p s : string) : dropn (String.length p) (p +:+ s) = s.
Proof.
  induction p as [|x p IH]; [by destruct s|]. rewrite append_cons. exact IH.
Qed.

Lemma TrimPrefix_append (p s : string) : TrimPrefix (p +:+ s) p = s.
Proof.
  unfold TrimPrefix.
  assert (HasPrefix (p +:+ s) p = true) as -> by (apply HasPrefix_spec; by exists s).
  apply dropn_append.
Qed.

Lemma rev_app_append (a b : string) : String.rev_app a b = String.rev a +:+ b.
Proof.
  unfold String.rev. revert b. induction a as [|x a IH]; intros b; simpl; [done|].
  rewrite (IH (String x "")), IH, append_assoc. reflexivity.
Qed.

Lemma rev_append (a b : string) :
  String.rev (a +:+ b) = String.rev b +:+ String.rev a.
Proof.
  induction a as [|x a IH].
  - simpl. by rewrite append_nil_r.
  - rewrite append_cons. unfold String.rev at 1 3. simpl.
    rewrite !rev_app_append, IH, append_assoc. reflexivity.
Qed.

Lemma rev_involutive (a : string) : String.rev (String.rev a) = a.
Proof.
  induction a as [|x a IH]; [reflexivity|].
  unfold String.rev at 2. simpl. rewrite rev_app_append, rev_append, IH.
  reflexivity.
Qed.

Lemma rev_length (a : string) : String.length (String.rev a) = String.length a.
Proof.
  induction a as [|x a IH]; [reflexivity|].
  unfold String.rev. simpl. rewrite rev_app_append, length_append, IH. simpl. lia.
Qed.

Lemma HasSuffix_spec (s suffix : string) :
  HasSuffix s suffix = true ↔ ∃ p, s = p +:+ suffix.
Proof.
  unfold HasSuffix. rewrite HasPrefix_spec. split.
  - intros [r Hr]. exists (String.rev r).
    rewrite <- (rev_involutive s), Hr, rev_append, rev_involutive. reflexivity.
  - intros [p ->]. exists (String.rev p). apply rev_append.
Qed.

Lemma TrimSuffix_append (p suffix : string) : TrimSuffix (p +:+ suffix) suffix = p.
Proof.
  unfold TrimSuffix.
  assert (HasSuffix (p +:+ suffix) suffix = true) as ->
    by (apply HasSuffix_spec; by exists p).
  rewrite rev_append, <- (rev_length suffix), dropn_append.
  apply rev_involutive.
Qed.

(** X1: a file name made of a name and the suite's extension is a fixture,
    and [isTest] gives the name back. *)
Theorem isTest_of_name (name ext : string) :
  isTest (name +:+ ext) ext = (name, true).
Proof.
  unfold isTest.
  assert (HasSuffix (name +:+ ext) ext = true) as ->
    by (apply HasSuffix_spec; by exists name).
  simpl. by rewrite TrimSuffix_append.
Qed.

(** X2: whatever [isTest] accepts is the name it returns followed by the
    extension; whatever it rejects comes back with the empty name. *)
Theorem isTest_inverts (fname ext name : string) (ok : bool) :
  isTest fname ext = (name, ok) →
  if ok then fname = name +:+ ext else name = "".
Proof.
  unfold isTest. destruct (HasSuffix fname ext) eqn:Hs; simpl.
  - intros [= <- <-]. apply HasSuffix_spec in Hs as [p ->].
    by rewrite TrimSuffix_append.
  - by intros [= <- <-].
Qed.

Lemma isTest_inverts_witness : "a.go" = "a" +:+ ".go".
Proof.
  exact (isTest_inverts "a.go" ".go" "a" true eq_refl).
Defined.

(** X3: a file name made of [bench_], a name and the extension is a benchmark
    fixture, and [isBench] gives the name back. *)
Theorem isBench_of_name (name ext : string) :
  isBench ("bench_" +:+ name +:+ ext) ext = (name, true).
Proof.
  unfold isBench.
  assert (HasPrefix ("bench_" +:+ name +:+ ext) "bench_" = true) as ->
    by (apply HasPrefix_spec; by eexists).
  assert (HasSuffix ("bench_" +:+ name +:+ ext) ext = true) as ->.
  { apply HasSuffix_spec. exists ("bench_" +:+ name). by rewrite append_assoc. }
  simpl. by rewrite TrimPrefix_append, TrimSuffix_append.
Qed.

(** X4: every benchmark fixture is a test fixture as well, so the three test
    stages run it too; when prefix and extension do not overlap in the file
    name, its test name is [bench_] followed by its benchmark name. *)
Theorem isBench_isTest (fname ext bench : string) :
  isBench fname ext = (bench, true) →
  (isTest fname ext).2 = true
  ∧ ((6 + String.length ext ≤ String.length fname)%nat →
     fname = "bench_" +:+ bench +:+ ext
     ∧ isTest fname ext = ("bench_" +:+ bench, true)).
Proof.
  unfold isBench.
  destruct (HasPrefix fname "bench_") eqn:Hp; simpl; [|done].
  destruct (HasSuffix fname ext) eqn:Hs; simpl; [|done].
  intros [= <-]. split; [unfold isTest; by rewrite Hs|].
  intros Hlen.
  apply HasPrefix_spec in Hp as [r ->]. apply HasSuffix_spec in Hs as [p Hp].
  assert (∃ q, r = q +:+ ext) as [q ->].
  { apply HasSuffix_spec. unfold HasSuffix in *.
    assert (HasPrefix (String.rev ("bench_" +:+ r)) (String.rev ext) = true) as Hpre.
    { apply HasPrefix_spec. exists (String.rev p). rewrite Hp. apply rev_append. }
    rewrite rev_append in Hpre.
    rewrite length_append in Hlen. simpl in Hlen.
    assert (String.length (String.rev ext) ≤ String.length (String.rev r))%nat as Hl
      by (rewrite !rev_length; lia).
    clear -Hpre Hl. revert Hpre Hl.
    generalize (String.rev "bench_") as tail.
    generalize (String.rev ext) as e. generalize (String.rev r) as a.
    induction a as [|c a IH]; intros e tail Hpre Hl.
    - destruct e; [done | simpl in Hl; lia].
    - destruct e as [|d e]; [done|]. rewrite append_cons in Hpre. simpl in *.
      destruct (Ascii.eqb c d); [|done]. apply (IH e tail Hpre). lia. }
  rewrite TrimPrefix_append, TrimSuffix_append. split; [reflexivity|].
  rewrite <- append_assoc. unfold isTest.
  assert (HasSuffix (("bench_" +:+ q) +:+ ext) ext = true) as ->
    by (apply HasSuffix_spec; by eexists).
  simpl. by rewrite TrimSuffix_append.
Qed.

Lemma isBench_isTest_witness :
  isTest "bench_loop.go" ".go" = ("bench_loop", true).
Proof.
  destruct (isBench_isTest "bench_loop.go" ".go" "loop" eq_refl) as [_ H].
  destruct H as [_ H]; [simpl; lia | exact H].
Defined.

(** ** Reconciliation, run after run *)

Lemma withFiles_withFiles (fs1 fs2 : gmap string string) (t : T) :
  withFiles fs2 (withFiles fs1 t) = withFiles fs2 t.
Proof. reflexivity. Qed.

(** X5: bootstrap. With no golden file, reconciliation writes the produced
    text as the golden and skips the test; run again on the result with the
    same (non-empty) text, it lets the test go on and only removes the
    pending-diff file. *)
Theorem reconcile_bootstrap_then_pass (E : Env) (s : Suite) (update : bool)
    (suf failureMessage skipMessage fname got : string) (t : T) :
  files (world t) !! (fname +:+ suf) = None →
  got ≠ "" →
  let first := reconcile E s update suf failureMessage skipMessage fname got t in
  first = (withFiles (<[fname +:+ suf := got]> (files (world t))) t,
           inr (Skip "no test file found - generating"))
  ∧ reconcile E s update suf failureMessage skipMessage fname got first.1
    = (withFiles (delete ((fname +:+ suf) +:+ gotSuffix)
                    (<[fname +:+ suf := got]> (files (world t)))) t,
       inl tt).
Proof.
  intros Hnone Hgot first. subst first.
  rewrite reconcile_generate by (by rewrite Hnone). split; [reflexivity|].
  simpl. rewrite reconcile_equal; simpl; rewrite ?lookup_insert_eq; done.
Qed.

Lemma reconcile_bootstrap_then_pass_witness :
  let first := reconcile Sample.E0 Sample.s0 false nativeExt "unexpected" "forced"
                 "a.x" "A" (Sample.t0 ∅) in
  reconcile Sample.E0 Sample.s0 false nativeExt "unexpected" "forced" "a.x" "A" first.1
  = (Sample.t0 {["a.x.native" := "A"]}, inl tt).
Proof.
  destruct (reconcile_bootstrap_then_pass Sample.E0 Sample.s0 false nativeExt
              "unexpected" "forced" "a.x" "A" (Sample.t0 ∅)) as [_ H];
    [reflexivity | done |].
  simpl. rewrite H. vm_compute. reflexivity.
Defined.

(** X6: a mismatch with the update flag off fails the same way however often
    it is run: the second run finds the directory as the first left it,
    leaves it so, and stops with the same failure. *)
Theorem reconcile_mismatch_is_stable (E : Env) (s : Suite)
    (suf failureMessage skipMessage fname got exp : string) (t : T) :
  files (world t) !! (fname +:+ suf) = Some exp →
  exp ≠ "" → exp ≠ got →
  let first := reconcile E s false suf failureMessage skipMessage fname got t in
  reconcile E s false suf failureMessage skipMessage fname got first.1 = first.
Proof.
  intros Hg Hne Hd first. subst first.
  assert (Hp : fname +:+ (suf +:+ gotSuffix) ≠ fname +:+ suf).
  { rewrite <- append_assoc. by apply append_ne_self. }
  rewrite (reconcile_mismatch E s false suf failureMessage skipMessage fname got t)
    by (rewrite ?Hg; done).
  simpl. rewrite reconcile_mismatch; simpl;
    rewrite ?lookup_insert_ne by done; rewrite ?Hg; try done.
  rewrite withFiles_withFiles. by rewrite insert_insert_eq.
Qed.

Lemma reconcile_mismatch_is_stable_witness :
  let first := reconcile Sample.E0 Sample.s0 false nativeExt "unexpected" "forced"
                 "a.x" "B" (Sample.t0 {["a.x.native" := "A"]}) in
  reconcile Sample.E0 Sample.s0 false nativeExt "unexpected" "forced" "a.x" "B" first.1
  = first.
Proof.
  apply (reconcile_mismatch_is_stable Sample.E0 Sample.s0 nativeExt "unexpected"
           "forced" "a.x" "B" "A" (Sample.t0 {["a.x.native" := "A"]}));
    [reflexivity | done | done].
Defined.

(** X7: after a mismatch was resolved under the update flag, the next run
    with the same (non-empty) text lets the test go on, whatever the flag,
    and leaves no pending-diff file behind. *)
Theorem reconcile_update_then_pass (E : Env) (s : Suite) (update : bool)
    (suf failureMessage skipMessage fname got exp : string) (t : T) :
  files (world t) !! (fname +:+ suf) = Some exp →
  exp ≠ got → got ≠ "" →
  let first := reconcile E s true suf failureMessage skipMessage fname got t in
  let second := reconcile E s update suf failureMessage skipMessage fname got first.1 in
  second.2 = inl tt
  ∧ files (world second.1) !! (fname +:+ suf) = Some got
  ∧ files (world second.1) !! ((fname +:+ suf) +:+ gotSuffix) = None.
Proof.
  intros Hg Hd Hgot first second.
  assert (Hfirst : files (world first.1) = <[fname +:+ suf := got]> (files (world t))).
  { subst first. destruct (decide (exp = "")) as [He|He].
    - by rewrite reconcile_generate by (rewrite ?Hg; done).
    - by rewrite reconcile_update by (rewrite ?Hg; done). }
  subst second.
  rewrite reconcile_equal by (rewrite Hfirst, lookup_insert_eq; done).
  simpl. rewrite Hfirst. split; [done|]. split.
  - rewrite lookup_delete_ne by (by apply append_ne_self). apply lookup_insert_eq.
  - apply lookup_delete_eq.
Qed.

Lemma reconcile_update_then_pass_witness :
  let first := reconcile Sample.E0 Sample.s0 true nativeExt "unexpected" "forced"
                 "a.x" "B"
                 (Sample.t0 {["a.x.native" := "A"; "a.x.native_got" := "B"]}) in
  files (world (reconcile Sample.E0 Sample.s0 false nativeExt "unexpected" "forced"
                  "a.x" "B" first.1).1) !! "a.x.native_got" = None.
Proof.
  destruct (reconcile_update_then_pass Sample.E0 Sample.s0 false nativeExt
              "unexpected" "forced" "a.x" "B" "A"
              (Sample.t0 {["a.x.native" := "A"; "a.x.native_got" := "B"]}))
    as (_ & _ & H); [reflexivity | done | done |].
  exact H.
Defined.

(** X8: reconciliation cannot tell an empty golden file from a missing one:
    on two directories that differ only in that, it ends in the same
    directory with the same outcome. *)
Theorem reconcile_empty_golden_as_missing (E : Env) (s : Suite) (update : bool)
    (suf failureMessage skipMessage fname got : string) (t : T) :
  reconcile E s update suf failureMessage skipMessage fname got
    (withFiles (<[fname +:+ suf := ""]> (files (world t))) t)
  = reconcile E s update suf failureMessage skipMessage fname got
      (withFiles (delete (fname +:+ suf) (files (world t))) t).
Proof.
  rewrite !reconcile_generate; simpl;
    rewrite ?lookup_insert_eq, ?lookup_delete_eq; try done.
  rewrite !withFiles_withFiles. by rewrite insert_insert_eq, insert_delete_eq.
Qed.

(** ** The files a subtest and a stage touch *)

Section Footprint.

Variable E : Env.
Variable K : string → Prop.

Lemma touches_bind {A B} (m : M A) (f : A → M B) :
  touches K m → (∀ a, touches K (f a)) → touches K (m ≫= f).
Proof.
  intros Hm Hf t k Hk. rewrite bind_apply.
  specialize (Hm t k Hk). destruct (m t) as [t' [a|fin]]; simpl in *; [|done].
  by rewrite Hf.
Qed.

Lemma keepsWorld_touches {A} (m : M A) : keepsWorld m → touches K m.
Proof. intros Hm t k _. by rewrite Hm. Qed.

Lemma touches_stop {A} fin : touches K (stop fin : M A).
Proof. by intros t k _. Qed.

Lemma touches_when (b : bool) (m : M unit) : touches K m → touches K (when b m).
Proof. destruct b; [done | by intros _ t k _]. Qed.

Lemma touches_add delta : touches K (atomic_AddUint32 delta).
Proof. by intros t k _. Qed.

Lemma touches_write s name data : K name → touches K (writeFixturesFile s name data).
Proof.
  intros HK t k Hk. simpl. rewrite lookup_insert_ne; [done|]. by intros ->.
Qed.

Lemma touches_delete s name : K name → touches K (deleteFixturesFile s name).
Proof.
  intros HK t k Hk. simpl. rewrite lookup_delete_ne; [done|]. by intros ->.
Qed.

Lemma touches_writeViewerJSON s name code ast :
  K (name +:+ ".json") → touches K (writeViewerJSON E s name code ast).
Proof.
  intros HK. unfold writeViewerJSON.
  destruct (viewer_MarshalUAST E (Lang s) code ast) as [data err].
  apply touches_bind; [apply keepsWorld_touches, keepsWorld_require_NoError|].
  intros _. by apply touches_write.
Qed.

Lemma touches_reconcile s update suf failureMessage skipMessage fname got :
  K (fname +:+ suf) → K (fname +:+ suf +:+ gotSuffix) →
  touches K (reconcile E s update suf failureMessage skipMessage fname got).
Proof.
  intros Hg Hp. unfold reconcile.
  apply touches_bind; [apply keepsWorld_touches, keepsWorld_read | intros exp].
  apply touches_bind.
  { apply touches_when, touches_bind; [by apply touches_write|].
    intros _. apply touches_stop. }
  intros _. destruct (negb (ObjectsAreEqual exp got)).
  - apply touches_bind.
    + destruct update; by apply touches_write.
    + intros _. destruct (negb update); apply touches_stop.
  - apply touches_delete. by rewrite append_assoc.
Qed.

End Footprint.

Lemma testNativeBody_touches (E : Env) (s : Suite) (dr : Native) (fname : string) :
  touches (nativeFootprint fname) (testNativeBody E s dr fname).
Proof.
  unfold testNativeBody.
  apply touches_bind; [apply keepsWorld_touches, keepsWorld_load | intros n].
  apply touches_bind; [apply touches_when, touches_stop | intros _].
  apply touches_bind; [apply keepsWorld_touches, keepsWorld_read | intros code].
  destruct (Parse dr code) as [resp err].
  destruct (Contains fname syntaxErrTestName).
  - apply touches_bind; [apply keepsWorld_touches, keepsWorld_require_True|].
    intros _. apply touches_stop.
  - apply touches_bind; [apply touches_when, touches_add | intros _].
    apply touches_bind; [apply keepsWorld_touches, keepsWorld_require_NoError | intros _].
    destruct (marshalNative E resp) as [js err'].
    apply touches_bind; [apply keepsWorld_touches, keepsWorld_require_NoError | intros _].
    apply touches_reconcile; [by left | by right].
Qed.

Lemma testUASTBody_touches (E : Env) (s : Suite) (dr : Native) (mode : Mode)
    (suf : string) (blacklist : list string) (fname : string) :
  touches (uastFootprint suf fname) (testUASTBody E s dr mode suf blacklist fname).
Proof.
  unfold testUASTBody.
  apply touches_bind; [apply keepsWorld_touches, keepsWorld_load | intros n].
  apply touches_bind; [apply touches_when, touches_stop | intros _].
  apply touches_bind; [apply keepsWorld_touches, keepsWorld_read | intros code].
  destruct (Parse dr code) as [ast err].
  apply touches_bind; [apply touches_when, touches_add | intros _].
  apply touches_bind.
  { apply touches_when, touches_bind; [apply keepsWorld_touches, keepsWorld_require_True|].
    intros _. apply touches_stop. }
  intros _.
  apply touches_bind; [apply keepsWorld_touches, keepsWorld_require_NoError | intros _].
  apply touches_bind.
  { apply touches_when. destruct (Do _ ModePreprocessed code ast) as [ua err'].
    apply touches_bind; [apply keepsWorld_touches, keepsWorld_require_NoError | intros _].
    destruct (marshalUAST E ua) as [un err''].
    apply touches_bind; [apply keepsWorld_touches, keepsWorld_require_NoError | intros _].
    apply touches_write. by left. }
  intros _. destruct (Do _ mode code ast) as [ua err'].
  apply touches_bind; [apply keepsWorld_touches, keepsWorld_require_NoError | intros _].
  apply touches_bind; [apply keepsWorld_touches, keepsWorld_blacklistScan | intros _].
  apply touches_bind;
    [apply keepsWorld_touches, keepsWorld_when, keepsWorld_conformanceScan | intros _].
  apply touches_bind;
    [apply keepsWorld_touches, keepsWorld_when, keepsWorld_verifyTokens | intros _].
  destruct (marshalUAST E ua) as [un err''].
  apply touches_bind; [apply keepsWorld_touches, keepsWorld_require_NoError | intros _].
  apply touches_bind.
  { apply touches_reconcile; [right; by left | right; right; by left]. }
  intros _. apply touches_when, touches_writeViewerJSON. by repeat right.
Qed.

(** X9: a native subtest changes no file but the golden and the pending-diff
    file of its own fixture; in particular it never changes the fixture's
    source file. *)
Theorem native_subtest_footprint (E : Env) (s : Suite) (dr : Native)
    (fname : string) (w : World) :
  (∀ k, ¬ nativeFootprint fname k →
        files (t_Run (testNativeBody E s dr fname) w).1 !! k = files w !! k)
  ∧ files (t_Run (testNativeBody E s dr fname) w).1 !! fname = files w !! fname.
Proof.
  assert (H : ∀ k, ¬ nativeFootprint fname k →
                files (t_Run (testNativeBody E s dr fname) w).1 !! k = files w !! k).
  { intros k Hk. rewrite t_Run_world.
    by apply (testNativeBody_touches E s dr fname {| world := w; logged := [] |}). }
  split; [exact H|]. apply H. intros [Heq|Heq]; symmetry in Heq;
    by apply append_ne_self in Heq.
Qed.

(** X10: an annotated or semantic subtest changes no file but the
    preprocessed dump, the golden, the pending-diff file and the viewer dump
    of its own fixture; with a golden suffix that is not empty it never
    changes the fixture's source file. *)
Theorem uast_subtest_footprint (E : Env) (s : Suite) (dr : Native) (mode : Mode)
    (suf : string) (blacklist : list string) (fname : string) (w : World) :
  suf ≠ "" →
  (∀ k, ¬ uastFootprint suf fname k →
        files (t_Run (testUASTBody E s dr mode suf blacklist fname) w).1 !! k
        = files w !! k)
  ∧ files (t_Run (testUASTBody E s dr mode suf blacklist fname) w).1 !! fname
    = files w !! fname.
Proof.
  intros Hsuf.
  assert (H : ∀ k, ¬ uastFootprint suf fname k →
                files (t_Run (testUASTBody E s dr mode suf blacklist fname) w).1 !! k
                = files w !! k).
  { intros k Hk. rewrite t_Run_world.
    by apply (testUASTBody_touches E s dr mode suf blacklist fname
                {| world := w; logged := [] |}). }
  split; [exact H|]. apply H.
  intros [Heq|[Heq|[Heq|Heq]]]; symmetry in Heq.
  - by apply append_ne_self in Heq.
  - by apply append_ne_self in Heq.
  - apply append_ne_self in Heq; [done|]. by destruct suf.
  - rewrite append_assoc in Heq. apply append_ne_self in Heq; [done|]. by destruct suf.
Qed.

Lemma uast_subtest_footprint_witness :
  files (t_Run (testUASTBody Sample.E0 Sample.s0 Sample.dr ModeAnnotated uastExt []
                  "a.x") {| files := {["a.x" := "tree"]}; parseErrors := 0 |}).1
    !! "a.x" = Some "tree".
Proof.
  destruct (uast_subtest_footprint Sample.E0 Sample.s0 Sample.dr ModeAnnotated uastExt []
              "a.x" {| files := {["a.x" := "tree"]}; parseErrors := 0 |}) as [_ H];
    [done|].
  rewrite H. reflexivity.
Defined.

(** The loop changes no file outside the footprints of the fixtures it
    lists. *)
Lemma fixturesLoop_touches (body : string → M unit) (suffix : string)
    (F : string → string → Prop) :
  (∀ fname, touches (F fname) (body fname)) →
  ∀ ents w k,
    (∀ fname, fname ∈ ents → (isTest fname suffix).2 = true → ¬ F fname k) →
    files (fixturesLoop body suffix ents w).1 !! k = files w !! k.
Proof.
  intros Hbody ents. induction ents as [|fname ents IH]; intros w k Hk; simpl; [done|].
  assert (Hrest : ∀ f, f ∈ ents → (isTest f suffix).2 = true → ¬ F f k)
    by (intros f Hf; apply Hk; by right).
  destruct (isTest fname suffix) as [name ok] eqn:Htest.
  destruct ok; simpl; [|by apply IH].
  destruct (maxParseErrors <=? parseErrors w); [done|].
  pose proof (Hbody fname {| world := w; logged := [] |} k) as Hb.
  rewrite <- t_Run_world in Hb.
  destruct (t_Run (body fname) w) as [w1 r]. simpl in Hb.
  specialize (IH w1 k Hrest).
  destruct (fixturesLoop body suffix ents w1) as [w2 rs]. simpl in *.
  rewrite IH. apply Hb. apply Hk; [by left | by rewrite Htest].
Qed.

Lemma ReadDir_elem (fs : gmap string string) (fname : string) :
  fname ∈ ReadDir fs ↔ is_Some (fs !! fname).
Proof.
  unfold ReadDir. rewrite merge_sort_Permutation.
  change (map fst (map_to_list fs)) with ((map_to_list fs).*1).
  rewrite list_elem_of_fmap. split.
  - intros ([k v] & -> & Hin). apply elem_of_map_to_list in Hin. by exists v.
  - intros [v Hv]. exists (fname, v). split; [done|]. by apply elem_of_map_to_list.
Qed.

(** X11: a whole stage changes no file but the artifacts of the fixtures in
    the directory: a file that is not in the footprint of any file with the
    suite's extension is the same after the stage as before, in the native
    stage and in the annotated and semantic ones. *)
Theorem stage_footprint (E : Env) (s : Suite) (mode : Mode) (suf : string)
    (blacklist : list string) (fs : gmap string string) (k : string) :
  ((∀ fname, is_Some (fs !! fname) → (isTest fname (Ext s)).2 = true →
             ¬ nativeFootprint fname k) →
   (testFixturesNative E s fs).1 !! k = fs !! k)
  ∧ ((∀ fname, is_Some (fs !! fname) → (isTest fname (Ext s)).2 = true →
               ¬ uastFootprint suf fname k) →
     (testFixturesUAST E s mode suf blacklist fs).1 !! k = fs !! k).
Proof.
  split; intros Hk; unfold testFixturesNative, testFixturesUAST, runStage;
    (destruct (Start (NewDriver s tt)); [done|]).
  - pose proof (fixturesLoop_touches (testNativeBody E s (NewDriver s tt)) (Ext s)
                  nativeFootprint
                  (testNativeBody_touches E s (NewDriver s tt))
                  (ReadDir fs) {| files := fs; parseErrors := 0 |} k) as H.
    destruct (fixturesLoop _ _ _ _) as [w rs]. simpl in *. apply H.
    intros fname Hin. apply Hk. by apply ReadDir_elem.
  - pose proof (fixturesLoop_touches
                  (testUASTBody E s (NewDriver s tt) mode suf blacklist) (Ext s)
                  (uastFootprint suf)
                  (testUASTBody_touches E s (NewDriver s tt) mode suf blacklist)
                  (ReadDir fs) {| files := fs; parseErrors := 0 |} k) as H.
    destruct (fixturesLoop _ _ _ _) as [w rs]. simpl in *. apply H.
    intros fname Hin. apply Hk. by apply ReadDir_elem.
Qed.

Lemma stage_footprint_witness :
  (testFixturesNative Sample.E0 Sample.s0
     {["a.x" := "ok"; "readme" := "notes"]}).1 !! "readme" = Some "notes".
Proof.
  destruct (stage_footprint Sample.E0 Sample.s0 ModeNative "" []
              {["a.x" := "ok"; "readme" := "notes"]} "readme") as [H _].
  rewrite H; [reflexivity|].
  intros fname _ _ [Heq|Heq].
  - assert (HasSuffix "readme" nativeExt = true) as Hs.
    { apply HasSuffix_spec. by exists fname. }
    discriminate Hs.
  - assert (HasSuffix "readme" gotSuffix = true) as Hs.
    { apply HasSuffix_spec. exists (fname +:+ nativeExt).
      by rewrite append_assoc. }
    discriminate Hs.
Defined.

(** ** Which fixtures a stage reports *)

(** X12: directory entries without the suite's extension play no part in a
    stage: the loop over a listing is the loop over its fixtures alone. *)
Theorem fixturesLoop_skips_other_files (body : string → M unit) (suffix : string)
    (ents : list string) (w : World) :
  fixturesLoop body suffix ents w
  = fixturesLoop body suffix (filter (λ fname, HasSuffix fname suffix = true) ents) w.
Proof.
  revert w. induction ents as [|fname ents IH]; intros w; [done|].
  rewrite filter_cons. cbn [fixturesLoop]. unfold isTest at 1.
  destruct (HasSuffix fname suffix) eqn:Hs; simpl.
  - unfold isTest. rewrite Hs. simpl.
    destruct (maxParseErrors <=? parseErrors w); [done|].
    destruct (t_Run (body fname) w) as [w1 r]. by rewrite IH.
  - apply IH.
Qed.

(** The names the loop reports are the names of the first fixtures of the
    listing, in the order of the listing. *)
Lemma fixturesLoop_names (body : string → M unit) (suffix : string)
    (ents : list string) (w : World) :
  (fixturesLoop body suffix ents w).2.*1
  `prefix_of` (λ fname, TrimSuffix fname suffix)
              <$> filter (λ fname, HasSuffix fname suffix = true) ents.
Proof.
  revert w. induction ents as [|fname ents IH]; intros w; [done|].
  rewrite filter_cons. cbn [fixturesLoop]. unfold isTest.
  destruct (HasSuffix fname suffix) eqn:Hs; simpl; [|apply IH].
  destruct (maxParseErrors <=? parseErrors w); [apply prefix_nil|].
  destruct (t_Run (body fname) w) as [w1 r].
  specialize (IH w1). destruct (fixturesLoop body suffix ents w1) as [w2 rs].
  simpl in *. by apply prefix_cons.
Qed.

Lemma discovered_length (suffix : string) (ents : list string) :
  discovered suffix ents
  = length (filter (λ fname, HasSuffix fname suffix = true) ents).
Proof.
  unfold discovered. f_equal. apply list_filter_iff. intros fname.
  unfold isTest. by destruct (HasSuffix fname suffix).
Qed.

(** X13: a stage reports one subtest per fixture, named by the file name
    without the extension, for the first fixtures of the sorted directory
    listing and in that order; it never reports anything else. *)
Theorem stage_reports_in_listing_order (E : Env) (s : Suite) (mode : Mode)
    (suf : string) (blacklist : list string) (fs : gmap string string) :
  let names := (λ fname, TrimSuffix fname (Ext s))
               <$> filter (λ fname, HasSuffix fname (Ext s) = true) (ReadDir fs) in
  (subtests (testFixturesNative E s fs).2).*1 `prefix_of` names
  ∧ (subtests (testFixturesUAST E s mode suf blacklist fs).2).*1 `prefix_of` names.
Proof.
  intros names. unfold testFixturesNative, testFixturesUAST, runStage.
  destruct (Start (NewDriver s tt)); [split; apply prefix_nil|].
  split.
  - pose proof (fixturesLoop_names (testNativeBody E s (NewDriver s tt)) (Ext s)
                  (ReadDir fs) {| files := fs; parseErrors := 0 |}) as H.
    by destruct (fixturesLoop _ _ _ _).
  - pose proof (fixturesLoop_names
                  (testUASTBody E s (NewDriver s tt) mode suf blacklist) (Ext s)
                  (ReadDir fs) {| files := fs; parseErrors := 0 |}) as H.
    by destruct (fixturesLoop _ _ _ _).
Qed.

(** X14: in the loop of either stage function the failure counter only
    grows and never passes the ceiling, and if it ends below the ceiling
    every fixture of the listing was reported. *)
Theorem budget_bounds_and_completeness (E : Env) (s : Suite) (dr : Native)
    (mode : Mode) (suf : string) (blacklist : list string)
    (body : string → M unit) (ents : list string) (w : World) :
  body = testNativeBody E s dr
  ∨ body = testUASTBody E s dr mode suf blacklist →
  0 ≤ parseErrors w ≤ maxParseErrors →
  let res := fixturesLoop body (Ext s) ents w in
  parseErrors w ≤ parseErrors res.1 ≤ maxParseErrors
  ∧ (parseErrors res.1 < maxParseErrors →
     res.2.*1 = (λ fname, TrimSuffix fname (Ext s))
                <$> filter (λ fname, HasSuffix fname (Ext s) = true) ents).
Proof.
  intros Hbody Hw res.
  assert (Hstep : ∀ fname w0, 0 ≤ parseErrors w0 < maxParseErrors →
            parseErrors w0 ≤ parseErrors (t_Run (body fname) w0).1
            ≤ parseErrors w0 + 1).
  { intros fname w0 Hw0. destruct Hbody as [-> | ->];
      [by apply native_subtest_counts_once | by apply uast_subtest_counts_once]. }
  destruct (fixturesLoop_budget body (Ext s) Hstep ents w Hw) as (Hb & _ & Hall).
  fold res in Hb, Hall. split; [exact Hb|]. intros Hlt.
  destruct Hall as [Hlen|Hge]; [|lia].
  apply prefix_length_eq; [apply fixturesLoop_names|].
  rewrite !length_fmap. fold res. rewrite Hlen, discovered_length. done.
Qed.

Lemma budget_bounds_and_completeness_witness :
  (fixturesLoop (testNativeBody Sample.E0 Sample.s0 Sample.dr) ".x"
     ["a.x"; "readme"; "b.x"]
     {| files := {["a.x" := "bad"; "b.x" := "ok"]}; parseErrors := 0 |}).2.*1
  = ["a"; "b"].
Proof.
  destruct (budget_bounds_and_completeness Sample.E0 Sample.s0 Sample.dr ModeNative
              "" [] (testNativeBody Sample.E0 Sample.s0 Sample.dr)
              ["a.x"; "readme"; "b.x"]
              {| files := {["a.x" := "bad"; "b.x" := "ok"]}; parseErrors := 0 |})
    as [_ H]; [by left | unfold maxParseErrors; simpl; lia |].
  etransitivity; [apply H | reflexivity]. vm_compute. reflexivity.
Defined.

(** X15: a subtest started with the budget used up does nothing: it is
    skipped at once by [SkipNow], logs nothing and leaves the directory and
    the counter as they are. *)
Theorem exhausted_subtest_is_skipped (E : Env) (s : Suite) (dr : Native)
    (mode : Mode) (suf : string) (blacklist : list string)
    (fname : string) (w : World) :
  maxParseErrors ≤ parseErrors w →
  t_Run (testNativeBody E s dr fname) w = (w, {| errors := []; finish := SkipNow |})
  ∧ t_Run (testUASTBody E s dr mode suf blacklist fname) w
    = (w, {| errors := []; finish := SkipNow |}).
Proof.
  intros Hw. unfold t_Run.
  rewrite testNativeBody_exhausted, testUASTBody_exhausted by done. done.
Qed.

Lemma exhausted_subtest_is_skipped_witness :
  t_Run (testNativeBody Sample.E0 Sample.s0 Sample.dr "a.x")
    {| files := {["a.x" := "bad"]}; parseErrors := 3 |}
  = ({| files := {["a.x" := "bad"]}; parseErrors := 3 |},
     {| errors := []; finish := SkipNow |}).
Proof.
  apply (exhausted_subtest_is_skipped Sample.E0 Sample.s0 Sample.dr ModeNative "" []).
  simpl. unfold maxParseErrors. lia.
Defined.

(** ** Parse failures and first runs *)

Lemma native_counts_unexpected_errors_witness :
  parseErrors (t_Run (testNativeBody Sample.E0 Sample.s0 Sample.dr "a.x")
                 {| files := {["a.x" := "bad"]}; parseErrors := 0 |}).1 = 1.
Proof.
  rewrite (native_counts_unexpected_errors Sample.E0 Sample.s0 Sample.dr "a.x");
    [reflexivity | simpl; unfold maxParseErrors; lia].
Defined.

(** X17: on a fixture that is not a syntax-error fixture, a parse error
    fails the subtest of any stage with that error, is counted once, and
    nothing is written: the directory stays as it was and nothing else is
    logged. *)
Theorem parse_failure_fails_the_subtest (E : Env) (s : Suite) (dr : Native)
    (mode : Mode) (suf : string) (blacklist : list string)
    (fname : string) (w : World) (resp : Node) (e : Error) :
  0 ≤ parseErrors w < maxParseErrors →
  Contains fname syntaxErrTestName = false →
  Parse dr (default "" (files w !! fname)) = (resp, Some e) →
  let counted := {| files := files w; parseErrors := parseErrors w + 1 |} in
  t_Run (testNativeBody E s dr fname) w
  = (counted, {| errors := []; finish := RequireNoError e |})
  ∧ t_Run (testUASTBody E s dr mode suf blacklist fname) w
    = (counted, {| errors := []; finish := RequireNoError e |}).
Proof.
  intros Hw Hsyn Hparse counted. subst counted. unfold t_Run.
  assert (Hwrap : uint32_wrap (parseErrors w + 1) = parseErrors w + 1)
    by (apply uint32_wrap_small; unfold maxParseErrors in *; lia).
  split.
  - unfold testNativeBody. rewrite bind_apply. simpl. rewrite bind_apply.
    destruct (Z.leb_spec maxParseErrors (parseErrors w)); [lia|]. simpl.
    rewrite bind_apply. simpl. rewrite Hparse, Hsyn. simpl. by rewrite Hwrap.
  - unfold testUASTBody. rewrite bind_apply. simpl. rewrite bind_apply.
    destruct (Z.leb_spec maxParseErrors (parseErrors w)); [lia|]. simpl.
    rewrite bind_apply. simpl. rewrite Hparse, Hsyn. simpl. by rewrite Hwrap.
Qed.

Lemma parse_failure_fails_the_subtest_witness :
  t_Run (testNativeBody Sample.E0 Sample.s0 Sample.dr "a.x")
    {| files := {["a.x" := "crash"]}; parseErrors := 2 |}
  = ({| files := {["a.x" := "crash"]}; parseErrors := 3 |},
     {| errors := []; finish := RequireNoError Sample.driverFailure |}).
Proof.
  destruct (parse_failure_fails_the_subtest Sample.E0 Sample.s0 Sample.dr ModeNative
              "" [] "a.x" {| files := {["a.x" := "crash"]}; parseErrors := 2 |}
              NNil Sample.driverFailure) as [H _];
    [simpl; unfold maxParseErrors; lia | reflexivity | reflexivity |].
  exact H.
Defined.

(** X18: first run, second run. On a fixture that parses and marshals to a
    non-empty text and has no golden yet, the native subtest writes the golden
    and is skipped; run again on the directory it left, it passes, the golden
    is unchanged, and the counter was never touched. *)
Theorem native_first_run_then_pass (E : Env) (s : Suite) (dr : Native)
    (fname : string) (w : World) (resp : Node) (js : string) :
  parseErrors w < maxParseErrors →
  Contains fname syntaxErrTestName = false →
  Parse dr (default "" (files w !! fname)) = (resp, None) →
  marshalNative E resp = (js, None) →
  js ≠ "" →
  files w !! (fname +:+ nativeExt) = None →
  let first := t_Run (testNativeBody E s dr fname) w in
  let second := t_Run (testNativeBody E s dr fname) first.1 in
  first.2 = {| errors := []; finish := Skip "no test file found - generating" |}
  ∧ files first.1 = <[fname +:+ nativeExt := js]> (files w)
  ∧ passed second.2 = true
  ∧ files second.1 !! (fname +:+ nativeExt) = Some js
  ∧ parseErrors second.1 = parseErrors w.
Proof.
  intros Hw Hsyn Hparse Hjs Hne Hnone first second.
  assert (Hfirst : first = ({| files := <[fname +:+ nativeExt := js]> (files w);
                               parseErrors := parseErrors w |},
                            {| errors := [];
                               finish := Skip "no test file found - generating" |})).
  { subst first. unfold t_Run.
    rewrite (testNativeBody_reconciles E s dr fname _ resp js) by done.
    rewrite reconcile_generate by (simpl; by rewrite Hnone). reflexivity. }
  subst second. rewrite Hfirst. simpl. unfold t_Run.
  assert (Hsrc : fname +:+ nativeExt ≠ fname) by (by apply append_ne_self).
  rewrite (testNativeBody_reconciles E s dr fname _ resp js);
    [| done | done | simpl; by rewrite lookup_insert_ne | done].
  rewrite reconcile_equal by (simpl; rewrite lookup_insert_eq; done).
  simpl. repeat split.
  rewrite lookup_delete_ne by (by apply append_ne_self). apply lookup_insert_eq.
Qed.

Lemma native_first_run_then_pass_witness :
  let w := {| files := {["a.x" := "ok"]}; parseErrors := 0 |} in
  let first := t_Run (testNativeBody Sample.E0 Sample.s0 Sample.dr "a.x") w in
  passed (t_Run (testNativeBody Sample.E0 Sample.s0 Sample.dr "a.x") first.1).2 = true.
Proof.
  intros w first.
  destruct (native_first_run_then_pass Sample.E0 Sample.s0 Sample.dr "a.x" w
              (NString "ok") "ok") as (_ & _ & H & _);
    [reflexivity | reflexivity | reflexivity | reflexivity | done | reflexivity |].
  exact H.
Defined.

(** ** The conformance scan and the token verifiers *)

Lemma withLogged_nil (t : T) : withLogged [] t = t.
Proof. destruct t as [w l]. unfold withLogged. simpl. by rewrite app_nil_r. Qed.

Lemma withLogged_app (l1 l2 : list Logged) (t : T) :
  withLogged l2 (withLogged l1 t) = withLogged (l1 ++ l2) t.
Proof. unfold withLogged. simpl. by rewrite app_assoc. Qed.

Lemma checkType_spec (E : Env) (n : Node) (t : T) :
  checkType E n t = (true, withLogged (typeErrors E n) t).
Proof.
  unfold checkType, typeErrors. destruct (eqb (TypeOf n) "").
  { by rewrite withLogged_nil. }
  destruct (uast_NewValue E (TypeOf n)) as [e|]; simpl.
  - destruct (bool_decide (kind e = ErrTypeNotRegistered)); [by rewrite withLogged_nil|].
    reflexivity.
  - destruct (uast_NodeAs E n (TypeOf n)); [reflexivity | by rewrite withLogged_nil].
Qed.

Lemma conformanceScan_spec (E : Env) (ua : Node) (t : T) :
  conformanceScan E ua t
  = (withLogged (flat_map (typeErrors E) (preorder ua)) t, inl tt).
Proof.
  unfold conformanceScan. f_equal.
  rewrite WalkPreOrder_fold by (intros; by rewrite checkType_spec).
  generalize (preorder ua) as l. clear ua. intros l. revert t.
  induction l as [|n l IH]; intros t; simpl; [by rewrite withLogged_nil|].
  rewrite checkType_spec. simpl. rewrite IH. apply withLogged_app.
Qed.

(** X19: the conformance scan is not fail-fast: it visits every node of the
    tree in pre-order and logs, in that order, one error for each typed node
    whose registered type it cannot create or convert to; it never stops
    the subtest and leaves directory and counter alone. *)
Theorem conformance_scan_reports_all (E : Env) (ua : Node) (t : T) :
  (conformanceScan E ua t).2 = inl tt
  ∧ world (conformanceScan E ua t).1 = world t
  ∧ logged (conformanceScan E ua t).1
    = logged t ++ flat_map (typeErrors E) (preorder ua).
Proof. by rewrite conformanceScan_spec. Qed.

(** X20: node types that are not registered are skipped in silence: on a
    tree whose typed nodes all have unregistered types the conformance scan
    changes nothing at all. *)
Theorem conformance_scan_skips_unregistered (E : Env) (ua : Node) (t : T) :
  (∀ n, n ∈ preorder ua → TypeOf n ≠ "" →
        Is ErrTypeNotRegistered (uast_NewValue E (TypeOf n)) = true) →
  conformanceScan E ua t = (t, inl tt).
Proof.
  intros Hun. rewrite conformanceScan_spec.
  assert (flat_map (typeErrors E) (preorder ua) = []) as ->; [|by rewrite withLogged_nil].
  induction (preorder ua) as [|n l IH]; [done|]. simpl.
  rewrite IH by (intros n' Hn'; apply Hun; by right).
  rewrite app_nil_r. unfold typeErrors.
  destruct (eqb (TypeOf n) "") eqn:Hty; [done|]. apply eqb_false in Hty.
  specialize (Hun n ltac:(by left) Hty). unfold Is in Hun.
  destruct (uast_NewValue E (TypeOf n)) as [e|]; [|done]. by rewrite Hun.
Qed.

Lemma conformance_scan_skips_unregistered_witness :
  conformanceScan Sample.E0 Sample.tree (Sample.t0 ∅) = (Sample.t0 ∅, inl tt).
Proof.
  apply conformance_scan_skips_unregistered. intros n _ _. reflexivity.
Defined.

(** X21: every token verifier is run, whatever the ones before it said: the
    errors of those that reject the tree are logged in the order of the
    verifiers, the subtest goes on, and directory and counter are left
    alone. *)
Theorem verifyTokens_reports_all (vs : list VerifyToken) (code : string)
    (ua : Node) (t : T) :
  verifyTokens vs code ua t = (withLogged (verifierErrors vs code ua) t, inl tt).
Proof.
  revert t. induction vs as [|v vs IH]; intros t; simpl.
  - by rewrite withLogged_nil.
  - rewrite bind_apply. unfold verifierErrors. simpl.
    destruct (Verify v code ua) as [e|]; simpl.
    + rewrite IH. unfold withLogged, verifierErrors. simpl.
      by rewrite <- app_assoc.
    + apply IH.
Qed.

(** ** The client connection of the development server *)

Section ClientV1.

Variables ClientConn Client : Type.
Variable NewProtocolServiceClient : ClientConn → Client.

(** X22: the connection is dialled once. After a call of [ClientV1] that
    succeeded, every later call returns the same client without dialling,
    whatever a dial would answer by then, and leaves the instance as it is. *)
Theorem ClientV1_dials_once (dial1 dial2 : string → ClientConn + Error)
    (d d1 : Build.ServerInstance ClientConn) (c : Client) :
  Build.ClientV1 _ _ NewProtocolServiceClient dial1 d = (d1, inl c) →
  Build.ClientV1 _ _ NewProtocolServiceClient dial2 d1 = (d1, inl c)
  ∧ Build.bblfshd _ d1 = Build.bblfshd _ d.
Proof.
  unfold Build.ClientV1. destruct d as [[conn|] box]; simpl.
  - intros [= <- <-]. done.
  - destruct (dial1 _) as [conn|err]; [|done]. intros [= <- <-]. done.
Qed.

(** X23: a failed dial leaves the instance without a connection, so the next
    call dials again; and a first call dials the container's address at port
    9432. *)
Theorem ClientV1_failure_keeps_instance (dial : string → ClientConn + Error)
    (d d1 : Build.ServerInstance ClientConn) (err : Error) :
  Build.ClientV1 _ _ NewProtocolServiceClient dial d = (d1, inr err) →
  d1 = d
  ∧ Build.user _ d = None
  ∧ dial (Build.IPAddress (Build.bblfshd _ d) +:+ ":9432") = inr err
  ∧ ∀ dial2, Build.ClientV1 _ _ NewProtocolServiceClient dial2 d1
             = match dial2 (Build.IPAddress (Build.bblfshd _ d) +:+ ":9432") with
               | inl conn =>
                   ({| Build.user := Some conn; Build.bblfshd := Build.bblfshd _ d |},
                    inl (NewProtocolServiceClient conn))
               | inr err2 => (d, inr err2)
               end.
Proof.
  unfold Build.ClientV1. destruct d as [[conn|] box]; simpl; [done|].
  change (":" +:+ Build.cliPort) with ":9432".
  destruct (dial _) as [conn|e] eqn:Hdial; [done|]. intros [= <- <-].
  repeat split; try done.
Qed.

End ClientV1.

Lemma ClientV1_dials_once_witness :
  let d := {| Build.user := None;
              Build.bblfshd := {| Build.ID := "c0"; Build.IPAddress := "172.17.0.2" |} |} in
  let d1 := (Build.ClientV1 string string id (λ addr, inl addr) d).1 in
  Build.ClientV1 string string id (λ _, inr Sample.driverFailure) d1
  = (d1, inl "172.17.0.2:9432").
Proof.
  intros d d1.
  apply (ClientV1_dials_once string string id (λ addr, inl addr)
           (λ _, inr Sample.driverFailure) d d1 "172.17.0.2:9432").
  reflexivity.
Defined.

Lemma ClientV1_failure_keeps_instance_witness :
  let d := {| Build.user := None;
              Build.bblfshd := {| Build.ID := "c0"; Build.IPAddress := "172.17.0.2" |} |} in
  (Build.ClientV1 string string id (λ _, inr Sample.driverFailure) d).1 = d.
Proof.
  intros d.
  destruct (ClientV1_failure_keeps_instance string string id
              (λ _, inr Sample.driverFailure) d
              (Build.ClientV1 string string id (λ _, inr Sample.driverFailure) d).1
              Sample.driverFailure) as [H _]; [reflexivity | exact H].
Defined.

(** ** What is logged stays logged *)

Section Log.

Variable E : Env.

Lemma growsLog_bind {A B} (m : M A) (f : A → M B) :
  growsLog m → (∀ a, growsLog (f a)) → growsLog (m ≫= f).
Proof.
  intros Hm Hf t. rewrite bind_apply.
  specialize (Hm t). destruct (m t) as [t' [a|fin]]; simpl in *; [|done].
  etransitivity; [exact Hm | apply Hf].
Qed.

Lemma growsLog_same {A} (m : M A) : (∀ t, logged (m t).1 = logged t) → growsLog m.
Proof. intros Hm t. by rewrite Hm. Qed.

Lemma growsLog_when (b : bool) (m : M unit) : growsLog m → growsLog (when b m).
Proof. destruct b; [done | by intros _ t]. Qed.

Lemma growsLog_require_NoError err : growsLog (require_NoError err).
Proof. apply growsLog_same. by destruct err. Qed.

Lemma growsLog_setFiles f : growsLog (setFiles f).
Proof. by apply growsLog_same. Qed.

Lemma growsLog_stop {A} fin : growsLog (stop fin : M A).
Proof. by apply growsLog_same. Qed.

Lemma growsLog_reconcile s update suf failureMessage skipMessage fname got :
  growsLog (reconcile E s update suf failureMessage skipMessage fname got).
Proof.
  unfold reconcile.
  apply growsLog_bind; [by apply growsLog_same | intros exp].
  apply growsLog_bind.
  { apply growsLog_when, growsLog_bind; [apply growsLog_setFiles|].
    intros _. apply growsLog_stop. }
  intros _. destruct (negb (ObjectsAreEqual exp got)); [|apply growsLog_setFiles].
  apply growsLog_bind; [apply growsLog_setFiles | intros _].
  destruct (negb update); apply growsLog_stop.
Qed.

Lemma growsLog_writeViewerJSON s name code ast :
  growsLog (writeViewerJSON E s name code ast).
Proof.
  unfold writeViewerJSON. destruct (viewer_MarshalUAST E (Lang s) code ast) as [data err].
  apply growsLog_bind; [apply growsLog_require_NoError | intros _].
  apply growsLog_setFiles.
Qed.

Lemma growsLog_conformanceScan ua : growsLog (conformanceScan E ua).
Proof. intros t. rewrite conformanceScan_spec. by apply prefix_app_r. Qed.

Lemma growsLog_verifyTokens vs code ua : growsLog (verifyTokens vs code ua).
Proof.
  induction vs as [|v vs IH]; [by intros t|]. simpl.
  apply growsLog_bind; [|intros _; apply IH].
  destruct (Verify v code ua); [|by intros t].
  intros t. by apply prefix_app_r.
Qed.

End Log.

(** X24: a forbidden type fails the subtest whatever the golden comparison
    says. When the source of a fixture parses and transforms, what the
    forbidden-type scan logs is the beginning of the subtest's error log, so
    with a violation the subtest is reported as failed even if the golden
    matches, is generated or is updated. *)
Theorem forbidden_type_fails_the_subtest (E : Env) (s : Suite) (dr : Native)
    (mode : Mode) (suf : string) (blacklist : list string)
    (fname : string) (w : World) (ast ua : Node) :
  parseErrors w < maxParseErrors →
  Contains fname syntaxErrTestName = false →
  WritePreprocessed s = false →
  Parse dr (default "" (files w !! fname)) = (ast, None) →
  Do (Transforms_ s) mode (default "" (files w !! fname)) ast = (ua, None) →
  let report := scanReport E (Transforms_ s) blacklist ua {| world := w; logged := [] |} in
  let res := t_Run (testUASTBody E s dr mode suf blacklist fname) w in
  report `prefix_of` errors res.2
  ∧ (report ≠ [] → failed res.2 = true).
Proof.
  intros Hw Hsyn Hpre Hparse Hdo report res.
  assert (Hprefix : report `prefix_of` errors res.2).
  { subst res. rewrite t_Run_errors. unfold testUASTBody.
    rewrite bind_apply. simpl. rewrite bind_apply.
    destruct (Z.leb_spec maxParseErrors (parseErrors w)); [lia|]. simpl.
    rewrite bind_apply. simpl. rewrite Hparse, Hsyn, Hpre. simpl.
    rewrite bind_apply. simpl. rewrite bind_apply. simpl. rewrite bind_apply. simpl.
    rewrite bind_apply. simpl. rewrite Hdo. rewrite bind_apply. simpl.
    rewrite bind_apply.
    pose proof (scan_logged E (Transforms_ s) blacklist ua {| world := w; logged := [] |})
      as Hlog. fold report in Hlog. simpl in Hlog.
    destruct (goesOn_blacklistScan E (Transforms_ s) blacklist ua
                {| world := w; logged := [] |}) as [[] Hg].
    destruct (blacklistScan E (Transforms_ s) blacklist ua {| world := w; logged := [] |})
      as [t1 r1]. simpl in Hlog, Hg. subst r1. rewrite <- Hlog.
    match goal with
    | |- _ `prefix_of` logged (?m t1).1 => cut (growsLog m); [intros Hk; apply Hk|]
    end.
    apply growsLog_bind; [apply growsLog_when, growsLog_conformanceScan | intros _].
    apply growsLog_bind; [apply growsLog_when, growsLog_verifyTokens | intros _].
    destruct (marshalUAST E ua) as [un e2].
    apply growsLog_bind; [apply growsLog_require_NoError | intros _].
    apply growsLog_bind; [apply growsLog_reconcile | intros _].
    apply growsLog_when, growsLog_writeViewerJSON. }
  split; [exact Hprefix|]. intros Hne. unfold failed.
  destruct (errors res.2) as [|e es]; [|done].
  apply prefix_nil_inv in Hprefix. done.
Qed.

Lemma forbidden_type_fails_the_subtest_witness :
  failed (t_Run (testUASTBody Sample.E0 (Sample.suite false false ["If"]) Sample.dr
                   ModeSemantic highExt ["If"] "t.x")
            {| files := {["t.x" := "tree"; "t.x.sem.uast" := "~"]};
               parseErrors := 0 |}).2 = true.
Proof.
  destruct (forbidden_type_fails_the_subtest Sample.E0 (Sample.suite false false ["If"])
              Sample.dr ModeSemantic highExt ["If"] "t.x"
              {| files := {["t.x" := "tree"; "t.x.sem.uast" := "~"]}; parseErrors := 0 |}
              Sample.tree Sample.tree) as [_ H];
    [reflexivity | reflexivity | reflexivity | reflexivity | reflexivity |].
  apply H. vm_compute. discriminate.
Defined.
